(** * Degrees of separation: a shallow embedding of [degrees/degrees.py]

    The tables [names], [people] and [movies] are Python dictionaries keyed
    by strings, holding sets of strings: they are embedded as [gmap] and
    [gset].  Exceptions are embedded as the [Raise] branch of [result]. *)

From Stdlib Require Import Ascii.
From stdpp Require Import gmap strings list fin_maps pretty.

Open Scope string_scope.
Open Scope list_scope.

Set Warnings "-register-all,-clear-no-such-hyp".

(** ** Exceptions *)

Inductive exn : Type :=
  | KeyError        (* a dictionary subscript on an absent key *)
  | NoSolution      (* [raise Exception("No solution")], line 115 *)
  | EmptyFrontier.  (* [remove()] on an empty frontier *)

Inductive result (A : Type) : Type :=
  | Ok (a : A)
  | Raise (e : exn).
Arguments Ok {A} a.
Arguments Raise {A} e.

(** ** The three global tables (lines 7-14) *)

Abbreviation person_id := string (only parsing).
Abbreviation movie_id := string (only parsing).

(* people[id] = {"name": ..., "birth": ..., "movies": set()} *)
Record person : Type := mkPerson {
  p_name : string;
  p_birth : string;
  p_movies : gset movie_id
}.

(* movies[id] = {"title": ..., "year": ..., "stars": set()} *)
Record movie : Type := mkMovie {
  m_title : string;
  m_year : string;
  m_stars : gset person_id
}.

Record dataset : Type := mkDataset {
  names : gmap string (gset person_id);
  people : gmap person_id person;
  movies : gmap movie_id movie
}.

Definition empty_dataset : dataset :=
  {| names := ∅; people := ∅; movies := ∅ |}.

(** ** [str.lower]

    [str.lower] is a built-in of Python, aware of Unicode.  It is a parameter
    of the development, [lower], of which one fact is used: on a string of
    ASCII characters it lowers the letters A-Z and leaves the rest alone. *)

Definition is_upper (c : ascii) : bool :=
  (65 <=? nat_of_ascii c)%nat && (nat_of_ascii c <=? 90)%nat.

Definition lower_ascii (c : ascii) : ascii :=
  if is_upper c then ascii_of_nat (nat_of_ascii c + 32) else c.

Fixpoint ascii_lower (s : string) : string :=
  match s with
  | EmptyString => EmptyString
  | String c r => String (lower_ascii c) (ascii_lower r)
  end.

Fixpoint is_ascii (s : string) : bool :=
  match s with
  | EmptyString => true
  | String c r => (nat_of_ascii c <? 128)%nat && is_ascii r
  end.

Class StrLower : Type := {
  lower : string → string;
  lower_is_ascii_lower : ∀ s, is_ascii s = true → lower s = ascii_lower s
}.

(** The lowering used to run the fixtures, whose names are ASCII. *)
Definition ascii_str_lower : StrLower :=
  {| lower := ascii_lower; lower_is_ascii_lower := λ s _, eq_refl |}.

(** Two characters that are the same letter up to case, and two strings that
    differ only in the case of their letters. *)
Definition same_letter (a b : ascii) : Prop :=
  a = b ∨ (is_upper a = true ∧ b = lower_ascii a)
        ∨ (is_upper b = true ∧ a = lower_ascii b).

Inductive case_variant : string → string → Prop :=
  | cv_empty : case_variant EmptyString EmptyString
  | cv_char a b s t :
      same_letter a b → case_variant s t →
      case_variant (String a s) (String b t).

(** ** [load_data] (lines 19-55)

    The three CSV files, as the rows [csv.DictReader] yields. *)

Record people_row : Type := mkPeopleRow {
  pr_id : string; pr_name : string; pr_birth : string
}.
Record movies_row : Type := mkMoviesRow {
  mr_id : string; mr_title : string; mr_year : string
}.
Record stars_row : Type := mkStarsRow {
  sr_person_id : string; sr_movie_id : string
}.
Record directory : Type := mkDirectory {
  people_csv : list people_row;
  movies_csv : list movies_row;
  stars_csv : list stars_row
}.

(* lines 27-35 *)
Definition load_person `{StrLower} (ds : dataset) (row : people_row) : dataset :=
  let people' :=
    <[pr_id row := mkPerson (pr_name row) (pr_birth row) ∅]> (people ds) in
  let key := lower (pr_name row) in
  let names' :=
    match names ds !! key with
    | None => <[key := {[pr_id row]}]> (names ds)
    | Some ids => <[key := ids ∪ {[pr_id row]}]> (names ds)
    end in
  {| names := names'; people := people'; movies := movies ds |}.

(* lines 41-45 *)
Definition load_movie (ds : dataset) (row : movies_row) : dataset :=
  {| names := names ds;
     people := people ds;
     movies := <[mr_id row := mkMovie (mr_title row) (mr_year row) ∅]> (movies ds) |}.

(* lines 51-55: the first statement of the [try] has already updated the
   person's movie set when the second one raises [KeyError]. *)
Definition load_star (ds : dataset) (row : stars_row) : dataset :=
  match people ds !! sr_person_id row with
  | None => ds
  | Some p =>
      let people' :=
        <[sr_person_id row :=
            mkPerson (p_name p) (p_birth p) (p_movies p ∪ {[sr_movie_id row]})]>
          (people ds) in
      match movies ds !! sr_movie_id row with
      | None => {| names := names ds; people := people'; movies := movies ds |}
      | Some m =>
          {| names := names ds;
             people := people';
             movies :=
               <[sr_movie_id row :=
                   mkMovie (m_title m) (m_year m) (m_stars m ∪ {[sr_person_id row]})]>
                 (movies ds) |}
      end
  end.

Definition load_data_from `{StrLower} (ds : dataset) (d : directory) : dataset :=
  foldl load_star
    (foldl load_movie (foldl load_person ds (people_csv d)) (movies_csv d))
    (stars_csv d).

(** The tables start empty and [load_data] is called once. *)
Definition load_data `{StrLower} (d : directory) : dataset :=
  load_data_from empty_dataset d.

(** ** [neighbors_for_person] (lines 205-215) *)

Fixpoint neighbors_loop (ds : dataset) (movie_ids : list movie_id)
    (neighbors : gset (movie_id * person_id)) : result (gset (movie_id * person_id)) :=
  match movie_ids with
  | [] => Ok neighbors
  | mid :: rest =>
      match movies ds !! mid with
      | None => Raise KeyError
      | Some m =>
          neighbors_loop ds rest (neighbors ∪ set_map (λ pid, (mid, pid)) (m_stars m))
      end
  end.

Definition neighbors_for_person (ds : dataset) (pid : person_id)
    : result (gset (movie_id * person_id)) :=
  match people ds !! pid with
  | None => Raise KeyError
  | Some p => neighbors_loop ds (elements (p_movies p)) ∅
  end.

(** ** [person_id_for_name] (lines 179-202)

    [typed] is the line [input("Intended Person ID: ")] returns; it is only
    read when several people share the name. *)

Definition candidates `{StrLower} (ds : dataset) (name : string) : gset person_id :=
  default ∅ (names ds !! lower name).

Definition person_id_for_name `{StrLower} (ds : dataset) (name typed : string)
    : result (option person_id) :=
  let person_ids := elements (candidates ds name) in
  match person_ids with
  | [] => Ok None
  | [pid] => Ok (Some pid)
  | _ =>
      if forallb (λ pid, bool_decide (is_Some (people ds !! pid))) person_ids
      then Ok (if bool_decide (typed ∈ person_ids) then Some typed else None)
      else Raise KeyError
  end.

(** ** Search nodes and frontiers *)

(** Modelled from the spec: [util.py], which declares [Node], [StackFrontier]
    and [QueueFrontier], is not among the sources.  A node is the immutable
    record (state, parent, action) of the spec's data model; the root has
    neither parent nor action. *)
Inductive Node : Type :=
  mkNode (state : person_id) (parent : option Node) (action : option movie_id).

Definition state (n : Node) : person_id := let 'mkNode s _ _ := n in s.
Definition parent (n : Node) : option Node := let 'mkNode _ p _ := n in p.
Definition action (n : Node) : option movie_id := let 'mkNode _ _ a := n in a.

Inductive policy : Type := StackFrontier | QueueFrontier.

Module Frontier.

(** Modelled from the spec: the frontier of section 4.1, an ordered
    collection of nodes with [add], [remove], [contains_state] and
    [empty]; the stack variant removes the most recently added node, the
    queue variant the earliest added one. *)
Definition t : Type := list Node.

Definition add (fr : t) (n : Node) : t := fr ++ [n].

Definition contains_state (fr : t) (st : person_id) : bool :=
  existsb (λ n, bool_decide (state n = st)) fr.

Definition empty (fr : t) : bool :=
  match fr with [] => true | _ :: _ => false end.

Definition remove (pol : policy) (fr : t) : result (Node * t) :=
  match pol with
  | StackFrontier =>
      match last fr with
      | None => Raise EmptyFrontier
      | Some n => Ok (n, removelast fr)
      end
  | QueueFrontier =>
      match fr with
      | [] => Raise EmptyFrontier
      | n :: rest => Ok (n, rest)
      end
  end.

End Frontier.

(** ** [checkForTargetPerson] (lines 148-174) *)

Definition solution : Type := (list (option movie_id) * list person_id)%type.

(* the [while node.parent is not None] loop, lines 159-163 *)
Fixpoint walk_parents (node : Node) (mvs : list (option movie_id))
    (ppl : list person_id) : solution :=
  match node with
  | mkNode _ None _ => (mvs, ppl)
  | mkNode st (Some up) act => walk_parents up (mvs ++ [act]) (ppl ++ [st])
  end.

Definition checkForTargetPerson (currentPersonId targetId : person_id)
    (node : Node) : option solution :=
  if bool_decide (currentPersonId = targetId) then
    let '(mvs, ppl) := walk_parents node [] [] in
    Some (reverse mvs, reverse ppl)
  else None.

(** ** [shortest_path] (lines 90-145)

    The [while True] loop and the [for] loop inside it, as a machine whose
    configurations hold the local variables [frontier] and [exploredPeople]
    and the position in the loops. *)

Inductive position : Type :=
  | LoopHead
  | InFor (node : Node) (moviesActorStarredIn : list (movie_id * person_id)).

Record config : Type := mkConfig {
  frontier : Frontier.t;
  exploredPeople : gset person_id;
  at_ : position
}.

Section Search.

Variable ds : dataset.
Variable pol : policy.
(** The order in which the [for] loop of line 129 visits a Python set. *)
Variable iter : gset (movie_id * person_id) → list (movie_id * person_id).
Variable target : person_id.

Definition step (c : config) : config + result solution :=
  match at_ c with
  | LoopHead =>
      if Frontier.empty (frontier c) then inr (Raise NoSolution)
      else
        match Frontier.remove pol (frontier c) with
        | Raise e => inr (Raise e)
        | Ok (node, fr) =>
            let explored := exploredPeople c ∪ {[state node]} in
            match neighbors_for_person ds (state node) with
            | Raise e => inr (Raise e)
            | Ok nbrs => inl (mkConfig fr explored (InFor node (iter nbrs)))
            end
        end
  | InFor node [] => inl (mkConfig (frontier c) (exploredPeople c) LoopHead)
  | InFor node ((movieId, personId) :: rest) =>
      if negb (Frontier.contains_state (frontier c) personId)
         && negb (bool_decide (personId ∈ exploredPeople c))
      then
        match checkForTargetPerson personId target node with
        | Some sol => inr (Ok sol)
        | None =>
            let child := mkNode personId (Some node) (Some movieId) in
            inl (mkConfig (Frontier.add (frontier c) child) (exploredPeople c)
                   (InFor node rest))
        end
      else inl (mkConfig (frontier c) (exploredPeople c) (InFor node rest))
  end.

Fixpoint run (fuel : nat) (c : config) : option (result solution) :=
  match fuel with
  | O => None
  | S k =>
      match step c with
      | inl c' => run k c'
      | inr r => Some r
      end
  end.

(* lines 103-109 *)
Definition init (source : person_id) : config :=
  mkConfig (Frontier.add [] (mkNode source None None)) ∅ LoopHead.

(** The configurations a call [shortest_path(source, target)] goes through. *)
Inductive reachable (source : person_id) : config → Prop :=
  | reach_init : reachable source (init source)
  | reach_step c c' :
      reachable source c → step c = inl c' → reachable source c'.

End Search.

Definition shortest_path_with (pol : policy)
    (iter : gset (movie_id * person_id) → list (movie_id * person_id))
    (ds : dataset) (source target : person_id) (fuel : nat)
    : option (result solution) :=
  run ds pol iter target fuel (init source).

(** Line 104 fixes the frontier: [frontier = StackFrontier()]. *)
Definition shortest_path := shortest_path_with StackFrontier.

(** ** Fixtures *)

Definition person_rows (ids : list string) : list people_row :=
  map (λ i, mkPeopleRow i i "1900") ids.

(* three people, M1 stars A and B, M2 stars B and C *)
Definition chain_dir : directory :=
  {| people_csv := person_rows ["A"; "B"; "C"];
     movies_csv := [mkMoviesRow "M1" "M1" "2000"; mkMoviesRow "M2" "M2" "2001"];
     stars_csv := [mkStarsRow "A" "M1"; mkStarsRow "B" "M1";
                   mkStarsRow "B" "M2"; mkStarsRow "C" "M2"] |}.

Definition chain_ds : dataset := @load_data ascii_str_lower chain_dir.

(* one person whose only stars record names a movie absent from movies.csv *)
Definition dangling_dir : directory :=
  {| people_csv := person_rows ["A"];
     movies_csv := [];
     stars_csv := [mkStarsRow "A" "M9"] |}.

(* A and B co-star in M1; a third stars record pairs A with a movie absent
   from movies.csv *)
Definition half_dangling_dir : directory :=
  {| people_csv := person_rows ["A"; "B"];
     movies_csv := [mkMoviesRow "M1" "M1" "2000"];
     stars_csv := [mkStarsRow "A" "M1"; mkStarsRow "B" "M1"; mkStarsRow "A" "M9"] |}.

(* A and C co-star in M1; B has no movie *)
Definition isolated_dir : directory :=
  {| people_csv := person_rows ["A"; "B"; "C"];
     movies_csv := [mkMoviesRow "M1" "M1" "2000"];
     stars_csv := [mkStarsRow "A" "M1"; mkStarsRow "C" "M1"] |}.

Definition isolated_ds : dataset := @load_data ascii_str_lower isolated_dir.

(* two people named Tom Hanks apart in case only, and one Kevin Bacon *)
Definition names_dir : directory :=
  {| people_csv := [mkPeopleRow "158" "Tom Hanks" "1956";
                    mkPeopleRow "102" "Kevin Bacon" "1958";
                    mkPeopleRow "9158" "TOM HANKS" "1970"];
     movies_csv := [];
     stars_csv := [] |}.

Definition names_ds : dataset := @load_data ascii_str_lower names_dir.

(** ** Properties of the loaded tables *)

(** No person has a movie yet: the state of the tables until the stars are read. *)
Definition movie_sets_empty (ds : dataset) : Prop :=
  ∀ p pr, people ds !! p = Some pr → p_movies pr = ∅.

(** Whoever has a movie of the movies table in their movie set stars in it. *)
Definition stars_consistent (ds : dataset) : Prop :=
  ∀ p pr m mv,
    people ds !! p = Some pr → m ∈ p_movies pr →
    movies ds !! m = Some mv → p ∈ m_stars mv.

(** Every star of a movie is in the people table. *)
Definition stars_known (ds : dataset) : Prop :=
  ∀ m mv p, movies ds !! m = Some mv → p ∈ m_stars mv → is_Some (people ds !! p).

(** ** The co-star graph *)

(** [b] starred in movie [m], one of the movies of [a]: the pairs
    [neighbors_for_person a] collects. *)
Definition costar (ds : dataset) (a : person_id) (m : movie_id) (b : person_id) : Prop :=
  ∃ pa mv, people ds !! a = Some pa ∧ m ∈ p_movies pa ∧
           movies ds !! m = Some mv ∧ b ∈ m_stars mv.

(** A sequence of (movie, person) pairs leading from [a] to [b], each pair a
    co-star relation with the person before it. *)
Fixpoint is_path (ds : dataset) (a : person_id)
    (path : list (movie_id * person_id)) (b : person_id) : Prop :=
  match path with
  | [] => a = b
  | (m, q) :: rest => costar ds a m q ∧ is_path ds q rest b
  end.

Definition graph_distance (ds : dataset) (a b : person_id) (d : nat) : Prop :=
  (∃ path, length path = d ∧ is_path ds a path b) ∧
  ∀ path, is_path ds a path b → (d ≤ length path)%nat.

(** ** Invariants of the search loop *)

Definition root (source : person_id) : Node := mkNode source None None.

(** The frontier holds each state at most once, none of them explored, and
    the node being expanded has been marked explored. *)
Definition inv (c : config) : Prop :=
  NoDup (state <$> frontier c) ∧
  (∀ n, n ∈ frontier c → state n ∉ exploredPeople c) ∧
  match at_ c with
  | LoopHead => True
  | InFor node _ => state node ∈ exploredPeople c
  end.

Fixpoint depth (n : Node) : nat :=
  match n with
  | mkNode _ None _ => 0
  | mkNode _ (Some up) _ => S (depth up)
  end.

(** No configuration of a run has a node with the target's state in its
    frontier. *)
Definition target_never_in_frontier (ds : dataset) (pol : policy)
    (iter : gset (movie_id * person_id) → list (movie_id * person_id))
    (source target : person_id) : Prop :=
  ∀ c, reachable ds pol iter target source c →
       ∀ n, n ∈ frontier c → state n ≠ target.

(** Induction on a node along its parent references. *)
Fixpoint Node_parent_ind (P : Node → Prop)
    (Hroot : ∀ st act, P (mkNode st None act))
    (Hchild : ∀ st up act, P up → P (mkNode st (Some up) act))
    (n : Node) : P n :=
  match n with
  | mkNode st None act => Hroot st act
  | mkNode st (Some up) act => Hchild st up act (Node_parent_ind P Hroot Hchild up)
  end.

(** The states of a node and of the nodes above it. *)
Fixpoint chain_states (n : Node) : list person_id :=
  match n with
  | mkNode st None _ => [st]
  | mkNode st (Some up) _ => st :: chain_states up
  end.

(** Everything above a frontier node, and the node being expanded with
    everything above it, has been explored. *)
Definition ancestors_explored (c : config) : Prop :=
  (∀ n up, n ∈ frontier c → parent n = Some up →
           ∀ st, st ∈ chain_states up → st ∈ exploredPeople c) ∧
  match at_ c with
  | LoopHead => True
  | InFor node _ => ∀ st, st ∈ chain_states node → st ∈ exploredPeople c
  end.

Definition connected (ds : dataset) (source : person_id) (c : config) : Prop :=
  (∀ n, n ∈ frontier c → ∃ path, is_path ds source path (state n)) ∧
  match at_ c with
  | LoopHead => True
  | InFor node rest =>
      (∃ path, is_path ds source path (state node)) ∧
      ∀ m q, (m, q) ∈ rest → costar ds (state node) m q
  end.

(** ** Termination measure *)

Definition all_stars (ds : dataset) : gset person_id :=
  ⋃ (m_stars <$> (map_to_list (movies ds)).*2).

(** The states a search from [source] can ever hold. *)
Definition universe (ds : dataset) (source : person_id) : gset person_id :=
  {[source]} ∪ all_stars ds.

Definition closed (ds : dataset) (source : person_id) (c : config) : Prop :=
  (∀ n, n ∈ frontier c → state n ∈ universe ds source) ∧
  match at_ c with
  | LoopHead => True
  | InFor _ rest => ∀ m q, (m, q) ∈ rest → q ∈ universe ds source
  end.

Definition sound_config (ds : dataset) (source : person_id) (c : config) : Prop :=
  inv c ∧ closed ds source c.

(** A run from [c] ends, with a solution or an exception. *)
Definition terminates (ds : dataset) (pol : policy)
    (iter : gset (movie_id * person_id) → list (movie_id * person_id))
    (target : person_id) (c : config) : Prop :=
  ∃ fuel r, run ds pol iter target fuel c = Some r.

(** ** Further predicates *)

(** stars.csv pairs person [p] with movie [m]. *)
Definition starred (d : directory) (p : person_id) (m : movie_id) : Prop :=
  ∃ srow, srow ∈ stars_csv d ∧ sr_person_id srow = p ∧ sr_movie_id srow = m.

(** The (action, state) pairs of the nodes from below the root down to [n]. *)
Fixpoint node_pairs (n : Node) : list (option movie_id * person_id) :=
  match n with
  | mkNode _ None _ => []
  | mkNode st (Some up) act => node_pairs up ++ [(act, st)]
  end.

(** A node whose pairs are the steps of a co-star path from [source] to its
    own state. *)
Definition valid_node (ds : dataset) (source : person_id) (n : Node) : Prop :=
  ∃ path, node_pairs n = (λ mp, (Some mp.1, mp.2)) <$> path ∧
          is_path ds source path (state n).

Definition valid_config (ds : dataset) (source : person_id) (c : config) : Prop :=
  (∀ n, n ∈ frontier c → valid_node ds source n) ∧
  match at_ c with
  | LoopHead => True
  | InFor node rest =>
      valid_node ds source node ∧
      ∀ m q, (m, q) ∈ rest → costar ds (state node) m q
  end.

(** [b] has been dequeued or is waiting in the frontier. *)
Definition seen (c : config) (b : person_id) : Prop :=
  b ∈ exploredPeople c ∨ b ∈ state <$> frontier c.

(** The source has been seen, the co-stars of everybody whose expansion is
    over have been seen, and those of the node being expanded have been seen
    or are still to be visited. *)
Definition expansion_closed (ds : dataset) (source : person_id) (c : config) : Prop :=
  seen c source ∧
  (∀ a m b,
     a ∈ exploredPeople c →
     match at_ c with LoopHead => True | InFor node _ => a ≠ state node end →
     costar ds a m b → seen c b) ∧
  match at_ c with
  | LoopHead => True
  | InFor node rest => ∀ m b, costar ds (state node) m b → seen c b ∨ (m, b) ∈ rest
  end.

(** Every stars row names a movie of movies.csv. *)
Definition clean_stars (d : directory) : Prop :=
  ∀ srow, srow ∈ stars_csv d → sr_movie_id srow ∈ mr_id <$> movies_csv d.

(** ** [main] (lines 58-87) *)

(** The console: the lines still to be read by [input] and the text written
    by [print] and by the prompts of [input], in the order written. *)
Record world : Type := mkWorld {
  stdin : list string;
  stdout : list string
}.

(** How a run of [main] can stop short of returning. *)
Inductive halt : Type :=
  | SystemExit (msg : string)   (* [sys.exit(msg)] *)
  | Uncaught (e : exn)          (* an exception of the module's own code *)
  | FileNotFoundError           (* [open] on a directory that is not there *)
  | EOFError                    (* [input] at the end of the input *)
  | TypeError.                  (* list + tuple, line 82 *)

(** Console programs: a result or a halt with the console they leave;
    [None] when the search runs out of fuel. *)
Definition io (A : Type) : Type := world → option ((A + halt) * world).

#[global] Instance io_ret : MRet io := λ A a w, Some (inl a, w).

#[global] Instance io_bind : MBind io := λ A B k m w,
  match m w with
  | None => None
  | Some (inl a, w') => k a w'
  | Some (inr h, w') => Some (inr h, w')
  end.

Definition stop {A : Type} (h : halt) : io A := λ w, Some (inr h, w).

Definition newline : string := String (ascii_of_nat 10) EmptyString.

(* print(s) *)
Definition print (s : string) : io unit :=
  λ w, Some (inl (), mkWorld (stdin w) (stdout w ++ [s +:+ newline])).

(* input(prompt) *)
Definition input (prompt : string) : io string :=
  λ w, match stdin w with
       | [] => Some (inr EOFError, mkWorld [] (stdout w ++ [prompt]))
       | line :: rest => Some (inl line, mkWorld rest (stdout w ++ [prompt]))
       end.

(* lines 189-193 *)
Fixpoint print_candidates (ds : dataset) (person_ids : list person_id) : io unit :=
  match person_ids with
  | [] => mret ()
  | person_id :: rest =>
      match people ds !! person_id with
      | None => stop (Uncaught KeyError)
      | Some person =>
          print ("ID: " +:+ person_id +:+ ", Name: " +:+ p_name person
                 +:+ ", Birth: " +:+ p_birth person) ;;
          print_candidates ds rest
      end
  end.

(** [person_id_for_name] with its console traffic. *)
Definition person_id_for_name_io `{StrLower} (ds : dataset) (name : string)
    : io (option person_id) :=
  let person_ids := elements (candidates ds name) in
  match person_ids with
  | [] => mret None
  | [pid] => mret (Some pid)
  | _ =>
      print ("Which '" +:+ name +:+ "'?") ;;
      print_candidates ds person_ids ;;
      typed ← input "Intended Person ID: ";
      mret (if bool_decide (typed ∈ person_ids) then Some typed else None)
  end.

(* shortest_path(source, target), line 75 *)
Definition call_shortest_path
    (iter : gset (movie_id * person_id) → list (movie_id * person_id))
    (fuel : nat) (ds : dataset) (source target : person_id) : io solution :=
  λ w, match shortest_path iter ds source target fuel with
       | None => None
       | Some (Ok path) => Some (inl path, w)
       | Some (Raise e) => Some (inr (Uncaught e), w)
       end.

(* len() of the pair that [checkForTargetPerson] returns *)
Definition len_tuple (path : solution) : nat := 2.

(* sys.argv[1] if len(sys.argv) == 2 else "small", line 61 *)
Definition directory_arg (argv : list string) : string :=
  if bool_decide (length argv = 2%nat) then default "small" (argv !! 1%nat)
  else "small".

(** [fs] is the file system: the three parsed CSV files of a directory, if
    the directory is there.  What [logging] writes goes to the standard
    error stream and is left out.  [argv] is [sys.argv], script name included.
    A solution is never [None] (line 139), so the test of line 77 fails and
    the [else] branch runs; line 82 adds a list and a tuple, which raises
    [TypeError], so lines 83-87 are not reached. *)
Definition main `{StrLower} (fs : string → option directory)
    (iter : gset (movie_id * person_id) → list (movie_id * person_id))
    (fuel : nat) (argv : list string) : io unit :=
  if bool_decide (2 < length argv)%nat
  then stop (SystemExit "Usage: python degrees.py [directory]")
  else
    let directory := directory_arg argv in
    print "Loading data..." ;;
    match fs directory with
    | None => stop FileNotFoundError
    | Some d =>
        let ds := load_data d in
        print "Data loaded." ;;
        name1 ← input "Name: ";
        source ← person_id_for_name_io ds name1;
        match source with
        | None => stop (SystemExit "Person not found.")
        | Some source =>
            name2 ← input "Name: ";
            target ← person_id_for_name_io ds name2;
            match target with
            | None => stop (SystemExit "Person not found.")
            | Some target =>
                path ← call_shortest_path iter fuel ds source target;
                let degrees := len_tuple path in
                print (pretty degrees +:+ " degrees of separation.") ;;
                stop TypeError
            end
        end
    end.

Definition run_main (fs : string → option directory) (fuel : nat)
    (argv lines : list string) : option ((unit + halt) * world) :=
  @main ascii_str_lower fs elements fuel argv (mkWorld lines []).

(* a file system with the chain fixture as its default directory *)
Definition chain_fs (name : string) : option directory :=
  if bool_decide (name = "small") then Some chain_dir else None.

(** * Properties of [load_data] *)

Lemma foldl_preserves {A B : Type} (P : A → Prop) (f : A → B → A) (l : list B) :
  (∀ a x, P a → P (f a x)) → ∀ a, P a → P (foldl f a l).
Proof.
  intros Hf. induction l as [|x l IH]; intros a Ha; simpl; [done|].
  apply IH, Hf, Ha.
Qed.

Lemma load_person_movie_sets_empty {SL : StrLower} ds row :
  movie_sets_empty ds → movie_sets_empty (load_person ds row).
Proof.
  intros H p pr. unfold load_person; simpl.
  rewrite lookup_insert. case_decide; [|by apply H].
  by intros [= <-].
Qed.

Lemma load_person_stars_known {SL : StrLower} ds row :
  stars_known ds → stars_known (load_person ds row).
Proof.
  intros H m mv p Hm Hp. unfold load_person in *; simpl in *.
  rewrite lookup_insert. case_decide; [by eexists|]. by eapply H.
Qed.

Lemma load_movie_movie_sets_empty ds row :
  movie_sets_empty ds → movie_sets_empty (load_movie ds row).
Proof. intros H p pr. apply H. Qed.

Lemma load_movie_stars_known ds row :
  stars_known ds → stars_known (load_movie ds row).
Proof.
  intros H m mv p. unfold load_movie; simpl.
  rewrite lookup_insert. case_decide.
  - intros [= <-]; simpl. set_solver.
  - apply H.
Qed.

Lemma movie_sets_empty_consistent ds : movie_sets_empty ds → stars_consistent ds.
Proof. intros H p pr m mv Hp Hm. rewrite (H _ _ Hp) in Hm. set_solver. Qed.

Lemma load_star_stars_consistent ds row :
  stars_consistent ds → stars_consistent (load_star ds row).
Proof.
  intros H p pr m mv. unfold load_star.
  destruct (people ds !! sr_person_id row) as [p0|] eqn:Hp0; [|by apply H].
  destruct (movies ds !! sr_movie_id row) as [m0|] eqn:Hm0; simpl.
  - rewrite !lookup_insert. do 2 case_decide; simplify_eq/=.
    + intros [= <-] _ [= <-]; simpl. set_solver.
    + intros [= <-]; simpl. intros Hin Hmv.
      eapply H; [done| |done]. set_solver.
    + intros Hp Hin [= <-]; simpl.
      apply elem_of_union_l. by eapply H.
    + apply H.
  - rewrite lookup_insert. case_decide; simplify_eq/=; [|by apply H].
    intros [= <-]; simpl. intros Hin Hmv.
    eapply H; [done| |done].
    apply elem_of_union in Hin as [Hin|Hin]; [done|].
    apply elem_of_singleton in Hin. congruence.
Qed.

Lemma load_star_stars_known ds row :
  stars_known ds → stars_known (load_star ds row).
Proof.
  intros H m mv p. unfold load_star.
  destruct (people ds !! sr_person_id row) as [p0|] eqn:Hp0; [|by apply H].
  destruct (movies ds !! sr_movie_id row) as [m0|] eqn:Hm0; simpl.
  - rewrite !lookup_insert. intros Hm Hp.
    destruct (decide (sr_person_id row = p)); [by eexists|].
    case_decide; simplify_eq/=; [|by eapply H].
    eapply H; [done|]. set_solver.
  - rewrite lookup_insert. intros Hm Hp.
    case_decide; [by eexists|]. by eapply H.
Qed.

Lemma load_data_stars_consistent {SL : StrLower} d : stars_consistent (load_data d).
Proof.
  unfold load_data, load_data_from.
  apply foldl_preserves; [apply load_star_stars_consistent|].
  apply movie_sets_empty_consistent.
  apply foldl_preserves; [apply load_movie_movie_sets_empty|].
  apply foldl_preserves; [apply load_person_movie_sets_empty|].
  intros p pr; simpl. by rewrite lookup_empty.
Qed.

(** The part of the loader's tolerance policy that holds: a stars record is
    entered in a movie's star set only once its person has been found. *)
Lemma load_data_stars_known {SL : StrLower} d : stars_known (load_data d).
Proof.
  unfold load_data, load_data_from.
  apply foldl_preserves; [apply load_star_stars_known|].
  apply foldl_preserves; [apply load_movie_stars_known|].
  apply foldl_preserves; [apply load_person_stars_known|].
  intros m mv p; simpl. by rewrite lookup_empty.
Qed.

(** * Properties of [neighbors_for_person] *)

Lemma neighbors_loop_Ok ds l acc nbrs :
  neighbors_loop ds l acc = Ok nbrs →
  ∀ m q, (m, q) ∈ nbrs ↔
         (m, q) ∈ acc ∨ (m ∈ l ∧ ∃ mv, movies ds !! m = Some mv ∧ q ∈ m_stars mv).
Proof.
  revert acc. induction l as [|m0 l IH]; intros acc; simpl.
  - intros [= <-] m q. split; [by left|]. intros [?|[Hin _]]; [done|].
    by apply elem_of_nil in Hin.
  - destruct (movies ds !! m0) as [mv0|] eqn:Hm0; [|done].
    intros Hloop m q. rewrite (IH _ Hloop), elem_of_union, elem_of_map, elem_of_cons.
    split.
    + intros [[?|(q' & [= -> ->] & Hq)]|(Hin & Hmv)]; eauto 10.
    + intros [?|([->|Hin] & mv & Hmv & Hq)]; eauto 10.
      left; right. exists q. split; [done|]. congruence.
Qed.

Lemma neighbors_loop_Raise ds l acc e :
  neighbors_loop ds l acc = Raise e →
  e = KeyError ∧ ∃ m, m ∈ l ∧ movies ds !! m = None.
Proof.
  revert acc. induction l as [|m0 l IH]; intros acc; simpl; [done|].
  destruct (movies ds !! m0) as [mv0|] eqn:Hm0.
  - intros Hloop. destruct (IH _ Hloop) as (-> & m & Hin & Hm).
    split; [done|]. exists m. split; [by apply elem_of_cons; right|done].
  - intros [= <-]. split; [done|]. exists m0. split; [apply elem_of_cons; by left|done].
Qed.

Lemma neighbors_for_person_Ok ds p nbrs :
  neighbors_for_person ds p = Ok nbrs →
  ∀ m q, (m, q) ∈ nbrs ↔
         ∃ pr mv, people ds !! p = Some pr ∧ m ∈ p_movies pr ∧
                  movies ds !! m = Some mv ∧ q ∈ m_stars mv.
Proof.
  unfold neighbors_for_person.
  destruct (people ds !! p) as [pr|] eqn:Hp; [|done].
  intros Hloop m q. rewrite (neighbors_loop_Ok _ _ _ _ Hloop), elem_of_elements.
  split.
  - intros [Hin|(Hin & mv & Hmv & Hq)]; [set_solver|]. by exists pr, mv.
  - intros (pr' & mv & [= <-] & Hin & Hmv & Hq). right. eauto.
Qed.

(** [neighbors_for_person] lists a loaded person among their own co-stars,
    or fails on a movie id the movies table does not have. *)
Lemma neighbors_for_person_self_loaded {SL : StrLower} d p pr :
  people (load_data d) !! p = Some pr →
  match neighbors_for_person (load_data d) p with
  | Ok nbrs => ∀ m, m ∈ p_movies pr → (m, p) ∈ nbrs
  | Raise e =>
      e = KeyError ∧ ∃ m, m ∈ p_movies pr ∧ movies (load_data d) !! m = None
  end.
Proof.
  intros Hp.
  destruct (neighbors_for_person (load_data d) p) as [nbrs|e] eqn:Hn.
  - intros m Hm. apply (neighbors_for_person_Ok _ _ _ Hn).
    unfold neighbors_for_person in Hn. rewrite Hp in Hn.
    destruct (movies (load_data d) !! m) as [mv|] eqn:Hmv.
    + exists pr, mv. repeat split; try done.
      by eapply load_data_stars_consistent.
    + exfalso. clear -Hn Hm Hmv.
      assert (Hin : m ∈ elements (p_movies pr)) by by apply elem_of_elements.
      revert Hn Hin. generalize (elements (p_movies pr)) (∅ : gset (string * string)).
      intros l. induction l as [|m0 l IH]; intros acc; simpl.
      * intros _ Hin. by apply elem_of_nil in Hin.
      * destruct (movies (load_data d) !! m0) eqn:Hm0; [|done].
        intros Hloop [->|Hin]%elem_of_cons; [congruence|]. by eapply IH.
  - unfold neighbors_for_person in Hn. rewrite Hp in Hn.
    destruct (neighbors_loop_Raise _ _ _ _ Hn) as (-> & m & Hin & Hm).
    split; [done|]. exists m. split; [by apply elem_of_elements|done].
Qed.

(** * Name resolution *)







Lemma case_variant_refl s : case_variant s s.
Proof. induction s; constructor; [by left|done]. Qed.

Lemma case_variant_sym s t : case_variant s t → case_variant t s.
Proof.
  induction 1 as [|a b s t Hab _ IH]; constructor; [|done].
  destruct Hab as [->|[?|?]]; [by left|right; by right|right; by left].
Qed.


Lemma person_id_for_name_no_match {SL : StrLower} ds n typed :
  candidates ds n = ∅ → person_id_for_name ds n typed = Ok None.
Proof. unfold person_id_for_name. intros ->. by rewrite elements_empty. Qed.



(** * Frontier operations *)

Lemma contains_state_false fr st :
  Frontier.contains_state fr st = false ↔ ∀ n, n ∈ fr → state n ≠ st.
Proof.
  unfold Frontier.contains_state. induction fr as [|n0 fr IH]; simpl.
  - split; [|done]. intros _ n Hn. by apply elem_of_nil in Hn.
  - rewrite orb_false_iff, IH, bool_decide_eq_false. split.
    + intros [Hn0 Hfr] n [->|Hn]%elem_of_cons; [done|by apply Hfr].
    + intros H. split; [apply H; by left|]. intros n Hn. apply H. by right.
Qed.

Lemma remove_Permutation pol fr node fr' :
  Frontier.remove pol fr = Ok (node, fr') → fr ≡ₚ node :: fr'.
Proof.
  destruct pol; simpl.
  - destruct (last fr) as [n|] eqn:Hlast; [|done].
    intros [= <- <-]. apply last_Some in Hlast as [l' ->].
    rewrite removelast_last. by rewrite Permutation_app_comm.
  - destruct fr as [|n rest]; [done|]. by intros [= <- <-].
Qed.

Lemma remove_nonempty pol fr :
  Frontier.empty fr = false → ∃ node fr', Frontier.remove pol fr = Ok (node, fr').
Proof.
  destruct fr as [|n rest]; [done|]. intros _. destruct pol; simpl.
  - destruct (last (n :: rest)) as [x|] eqn:Hlast; [by eauto|].
    by apply last_None in Hlast.
  - by eauto.
Qed.

(** * Invariants of the search loop *)

Section Invariants.

Variable ds : dataset.
Variable pol : policy.
Variable iter : gset (movie_id * person_id) → list (movie_id * person_id).
Variable target : person_id.

Local Abbreviation step1 := (step ds pol iter target).
Local Abbreviation runs := (run ds pol iter target).
Local Abbreviation reach := (reachable ds pol iter target).

Lemma init_inv source : inv (init source).
Proof.
  repeat split; simpl.
  - apply NoDup_singleton.
  - intros n _. apply not_elem_of_empty.
Qed.

(** What one step does, case by case. *)
Lemma step_inl c c' :
  step1 c = inl c' →
  (at_ c = LoopHead ∧
   ∃ node nbrs,
     Frontier.remove pol (frontier c) = Ok (node, frontier c') ∧
     neighbors_for_person ds (state node) = Ok nbrs ∧
     exploredPeople c' = exploredPeople c ∪ {[state node]} ∧
     at_ c' = InFor node (iter nbrs))
  ∨ (∃ node, at_ c = InFor node [] ∧ at_ c' = LoopHead ∧
       frontier c' = frontier c ∧ exploredPeople c' = exploredPeople c)
  ∨ (∃ node movieId personId rest,
       at_ c = InFor node ((movieId, personId) :: rest) ∧
       at_ c' = InFor node rest ∧
       exploredPeople c' = exploredPeople c ∧
       ((Frontier.contains_state (frontier c) personId = false ∧
         (personId ∉ exploredPeople c) ∧ personId ≠ target ∧
         frontier c' =
           Frontier.add (frontier c) (mkNode personId (Some node) (Some movieId)))
        ∨ ((Frontier.contains_state (frontier c) personId = true ∨
            personId ∈ exploredPeople c) ∧
           frontier c' = frontier c))).
Proof.
  unfold step. destruct (at_ c) as [|node [|[movieId personId] rest]] eqn:Hat.
  - destruct (Frontier.empty (frontier c)); [done|].
    destruct (Frontier.remove pol (frontier c)) as [[node fr]|e] eqn:Hrm; [|done].
    destruct (neighbors_for_person ds (state node)) as [nbrs|e] eqn:Hn; [|done].
    intros [= <-]. left. split; [done|]. by exists node, nbrs.
  - intros [= <-]. right; left. by exists node.
  - right; right. exists node, movieId, personId, rest. split; [done|].
    destruct (Frontier.contains_state (frontier c) personId) eqn:Hcs; simpl in *.
    { injection H as <-. simpl. repeat split; try done. right. split; [by left|done]. }
    case_bool_decide as Hex; simpl in *.
    { injection H as <-. simpl. repeat split; try done. right. split; [by right|done]. }
    unfold checkForTargetPerson in H. case_bool_decide as Htgt.
    { by destruct (walk_parents node [] []). }
    injection H as <-. simpl. repeat split; try done. by left.
Qed.

Lemma step_inv c c' : inv c → step1 c = inl c' → inv c'.
Proof.
  intros (Hnd & Hdisj & Hcur) Hstep.
  destruct (step_inl _ _ Hstep)
    as [(Hat & node & nbrs & Hrm & _ & Hex & Hat')
       |[(node & Hat & Hat' & Hfr & Hex)
        |(node & m & p & rest & Hat & Hat' & Hex & Hcase)]].
  - apply remove_Permutation in Hrm.
    rewrite Hrm, fmap_cons in Hnd. apply NoDup_cons in Hnd as [Hnotin Hnd'].
    unfold inv. rewrite Hat', Hex. repeat split; [done| |set_solver].
    intros n Hn. apply not_elem_of_union. split.
    + apply Hdisj. rewrite Hrm. by right.
    + intros Heq%elem_of_singleton. apply Hnotin. rewrite <- Heq.
      by apply list_elem_of_fmap_2.
  - unfold inv. by rewrite Hat', Hfr, Hex.
  - unfold inv. rewrite Hat', Hex. rewrite Hat in Hcur.
    destruct Hcase as [(Hcs & Hnex & _ & ->)|[_ ->]]; [|done].
    unfold Frontier.add. repeat split; [| |done].
    + rewrite fmap_app; simpl. apply NoDup_app. split; [done|].
      split; [|apply NoDup_singleton].
      intros st Hst ->%list_elem_of_singleton.
      apply list_elem_of_fmap in Hst as (n & Hn & Hin).
      by eapply contains_state_false in Hcs.
    + intros n [Hn| ->%list_elem_of_singleton]%elem_of_app; [by apply Hdisj|done].
Qed.

Lemma reachable_inv source c : reach source c → inv c.
Proof.
  induction 1 as [|c c' _ IH Hstep]; [apply init_inv|by eapply step_inv].
Qed.

Lemma step_explored_mono c c' :
  step1 c = inl c' → exploredPeople c ⊆ exploredPeople c'.
Proof.
  intros Hstep.
  destruct (step_inl _ _ Hstep)
    as [(_ & node & nbrs & _ & _ & -> & _)
       |[(node & _ & _ & _ & ->)|(node & m & p & rest & _ & _ & -> & _)]];
    set_solver.
Qed.

Lemma steps_explored_mono c c' :
  rtc (λ a b, step1 a = inl b) c c' → exploredPeople c ⊆ exploredPeople c'.
Proof.
  induction 1 as [|a b c' Hab _ IH]; [done|].
  etrans; [by apply step_explored_mono|done].
Qed.

Lemma reachable_steps source c c' :
  reach source c → rtc (λ a b, step1 a = inl b) c c' → reach source c'.
Proof.
  intros Hc Hrtc. induction Hrtc as [|a b c' Hab _ IH]; [done|].
  apply IH. by eapply reach_step.
Qed.

(** C6: throughout a run the explored set and the frontier are disjoint by
    state.  The state of a dequeued node is in the explored set from that
    step on and no longer in the frontier, the explored set only grows, and
    a node enters the frontier only with a state that is not explored. *)
Theorem explored_frontier_disjoint source c :
  reach source c →
  (∀ n, n ∈ frontier c → state n ∉ exploredPeople c) ∧
  (∀ c', step1 c = inl c' →
     (∀ node fr,
        at_ c = LoopHead → Frontier.remove pol (frontier c) = Ok (node, fr) →
        frontier c' = fr ∧ state node ∈ exploredPeople c' ∧
        Frontier.contains_state (frontier c') (state node) = false) ∧
     (∀ n, n ∈ frontier c' → n ∉ frontier c → state n ∉ exploredPeople c')) ∧
  (∀ c', rtc (λ a b, step1 a = inl b) c c' →
     exploredPeople c ⊆ exploredPeople c' ∧
     ∀ n, n ∈ frontier c' → state n ∉ exploredPeople c).
Proof.
  intros Hreach. pose proof (reachable_inv _ _ Hreach) as (Hnd & Hdisj & Hcur).
  split; [done|]. split.
  - intros c' Hstep.
    assert (Hinv' : inv c') by (eapply step_inv; [by eapply reachable_inv|done]).
    destruct Hinv' as (_ & Hdisj' & Hcur'). split; [|by auto].
    intros node fr Hat Hrm.
    destruct (step_inl _ _ Hstep)
      as [(_ & node' & nbrs & Hrm' & _ & Hex & Hat')
         |[(node' & Hat' & _)|(node' & m & p & rest & Hat' & _)]];
      [|congruence..].
    rewrite Hrm in Hrm'. injection Hrm' as -> ->.
    rewrite Hat' in Hcur'. split; [done|]. split; [done|].
    apply contains_state_false. intros n Hn Heq. apply (Hdisj' n Hn). by rewrite Heq.
  - intros c' Hsteps. pose proof (steps_explored_mono _ _ Hsteps) as Hmono.
    split; [done|]. intros n Hn Hex.
    assert (Hinv' : inv c') by (eapply reachable_inv, reachable_steps; done).
    destruct Hinv' as (_ & Hdisj' & _). apply (Hdisj' n Hn). by apply Hmono.
Qed.

End Invariants.

(** * The early goal check *)

Section EarlyGoalCheck.

Variable ds : dataset.
Variable pol : policy.
Variable iter : gset (movie_id * person_id) → list (movie_id * person_id).
Variable target : person_id.

Local Abbreviation step1 := (step ds pol iter target).
Local Abbreviation runs := (run ds pol iter target).
Local Abbreviation reach := (reachable ds pol iter target).

Lemma checkForTargetPerson_hit node :
  ∃ sol, checkForTargetPerson target target node = Some sol.
Proof.
  unfold checkForTargetPerson. rewrite bool_decide_eq_true_2 by done.
  destruct (walk_parents node [] []). by eexists.
Qed.

Lemma checkForTargetPerson_miss p node :
  p ≠ target → checkForTargetPerson p target node = None.
Proof. intros Hne. unfold checkForTargetPerson. by rewrite bool_decide_eq_false_2. Qed.

Lemma step_goal c node movieId rest :
  at_ c = InFor node ((movieId, target) :: rest) →
  Frontier.contains_state (frontier c) target = false →
  target ∉ exploredPeople c →
  ∃ sol, step1 c = inr (Ok sol).
Proof.
  intros Hat Hcs Hex. unfold step. rewrite Hat, Hcs.
  rewrite bool_decide_eq_false_2 by done. simpl.
  destruct (checkForTargetPerson_hit node) as [sol ->]. by exists sol.
Qed.

Lemma step_other c node movieId personId rest :
  at_ c = InFor node ((movieId, personId) :: rest) →
  personId ≠ target →
  ∃ c', step1 c = inl c' ∧ at_ c' = InFor node rest ∧
        exploredPeople c' = exploredPeople c ∧
        (frontier c' = frontier c ∨
         frontier c' =
           Frontier.add (frontier c) (mkNode personId (Some node) (Some movieId))).
Proof.
  intros Hat Hne. unfold step. rewrite Hat.
  rewrite (checkForTargetPerson_miss _ _ Hne).
  destruct (negb _ && negb _); eexists; (split; [done|]); simpl; auto.
Qed.

(** Only the root can carry the target's state in the frontier. *)
Lemma frontier_target_root source c :
  reach source c → ∀ n, n ∈ frontier c → state n = target → n = root source.
Proof.
  induction 1 as [|c c' _ IH Hstep]; intros n Hn Hst.
  - by apply list_elem_of_singleton in Hn.
  - destruct (step_inl _ _ _ _ _ _ Hstep)
      as [(_ & node & nbrs & Hrm & _)
         |[(node & _ & _ & Hfr & _)
          |(node & m & p & rest & _ & _ & _ & Hcase)]].
    + apply remove_Permutation in Hrm. apply IH; [|done]. rewrite Hrm. by right.
    + rewrite Hfr in Hn. by apply IH.
    + destruct Hcase as [(_ & _ & Hne & Hfr)|[_ Hfr]]; rewrite Hfr in Hn.
      * apply elem_of_app in Hn as [Hn|Hn%list_elem_of_singleton]; [by apply IH|].
        subst n. done.
      * by apply IH.
Qed.

(** Once a pair with the target is among the pairs still to visit, the
    [for] loop returns before it is through them. *)
Lemma run_for_finds rest : ∀ c node,
  at_ c = InFor node rest →
  (∃ movieId, (movieId, target) ∈ rest) →
  target ∉ exploredPeople c →
  (∀ n, n ∈ frontier c → state n ≠ target) →
  ∃ sol, runs (length rest) c = Some (Ok sol).
Proof.
  induction rest as [|[m p] rest IH]; intros c node Hat [m0 Hin] Hex Hfr.
  - by apply elem_of_nil in Hin.
  - simpl. destruct (decide (p = target)) as [->|Hne].
    + destruct (step_goal c node m rest Hat) as [sol ->]; [|done|by eauto].
      by apply contains_state_false.
    + destruct (step_other c node m p rest Hat Hne)
        as (c' & -> & Hat' & Hex' & Hfr').
      apply (IH c' node Hat').
      * exists m0. apply elem_of_cons in Hin as [[= _ ?]|Hin]; [congruence|done].
      * by rewrite Hex'.
      * intros n Hn. destruct Hfr' as [Hfr'|Hfr']; rewrite Hfr' in Hn; [by apply Hfr|].
        apply elem_of_app in Hn as [Hn|Hn%list_elem_of_singleton]; [by apply Hfr|].
        by subst n.
Qed.

Lemma remove_singleton n :
  Frontier.remove pol [n] = Ok (n, []).
Proof. by destruct pol. Qed.

Lemma run_S fuel c :
  runs (S fuel) c =
  match step1 c with
  | inl c' => runs fuel c'
  | inr r => Some r
  end.
Proof. reflexivity. Qed.

(* the first pass through the loop head: the root is dequeued *)
Lemma step_init source :
  step1 (init source) =
  match neighbors_for_person ds source with
  | Ok nbrs => inl (mkConfig [] (∅ ∪ {[source]}) (InFor (root source) (iter nbrs)))
  | Raise e => inr (Raise e)
  end.
Proof. by destruct pol. Qed.

(** With the target among the source's neighbours, a run never leaves the
    first expansion. *)
Lemma direct_neighbour_inv source nbrs movieId c :
  source ≠ target →
  neighbors_for_person ds source = Ok nbrs →
  (movieId, target) ∈ iter nbrs →
  reach source c →
  c = init source ∨
  ∃ rest, at_ c = InFor (root source) rest ∧
          (∃ m, (m, target) ∈ rest) ∧
          (target ∉ exploredPeople c) ∧
          ∀ n, n ∈ frontier c → parent n = Some (root source) ∧ state n ≠ target.
Proof.
  intros Hne Hn Hin. induction 1 as [|c c' _ IH Hstep]; [by left|right].
  destruct (step_inl _ _ _ _ _ _ Hstep)
    as [(Hat & node & nbrs' & Hrm & Hn' & Hex & Hat')
       |[(node & Hat & _)
        |(node & m & p & rest & Hat & Hat' & Hex & Hcase)]].
  - destruct IH as [->|(rest & Hat0 & _)]; [|congruence].
    simpl in Hrm. unfold Frontier.add in Hrm; simpl in Hrm.
    rewrite remove_singleton in Hrm. injection Hrm as <- Hfr.
    simpl in Hn'. rewrite Hn in Hn'. injection Hn' as <-.
    exists (iter nbrs). split; [done|]. split; [by eauto|]. split.
    + rewrite Hex. simpl. set_solver.
    + intros n Hn'. rewrite <- Hfr in Hn'. by apply elem_of_nil in Hn'.
  - destruct IH as [->|(rest & Hat0 & [m0 Hm0] & _)]; [done|].
    rewrite Hat in Hat0. injection Hat0 as _ <-. by apply elem_of_nil in Hm0.
  - destruct IH as [->|(rest0 & Hat0 & [m0 Hm0] & Hex0 & Hfr0)]; [done|].
    rewrite Hat in Hat0. injection Hat0 as -> <-.
    assert (Hp : p ≠ target).
    { destruct Hcase as [(_ & _ & Hp & _)|[[Hcs|Hpe] _]]; [done| |congruence].
      intros ->. assert (Hcf : Frontier.contains_state (frontier c) target = false).
      { apply contains_state_false. intros n Hn'. by apply Hfr0. }
      congruence. }
    exists rest. split; [done|]. split.
    { exists m0. apply elem_of_cons in Hm0 as [[= _ ?]|Hm0]; [congruence|done]. }
    split; [by rewrite Hex|].
    intros n Hn'. destruct Hcase as [(_ & _ & _ & Hfr)|[_ Hfr]]; rewrite Hfr in Hn'.
    + apply elem_of_app in Hn' as [Hn'|Hn'%list_elem_of_singleton]; [by apply Hfr0|].
      by subst n.
    + by apply Hfr0.
Qed.

(** C5, as the code has it: a node whose state equals the target enters the
    frontier only as the root of a search from the target to itself; every
    node the expansion loop adds has another state.  An eligible neighbour
    equal to the target ends the run at once, and when the target is a
    neighbour of a different source the run ends within the first expansion,
    with no node deeper than 1 ever in the frontier. *)
Theorem target_only_as_root source :
  (∀ c, reach source c →
        ∀ n, n ∈ frontier c → state n = target → n = root source ∧ source = target) ∧
  (source ≠ target → target_never_in_frontier ds pol iter source target) ∧
  (∀ c node movieId rest,
     at_ c = InFor node ((movieId, target) :: rest) →
     Frontier.contains_state (frontier c) target = false →
     target ∉ exploredPeople c →
     ∃ sol, step1 c = inr (Ok sol)) ∧
  (∀ nbrs movieId,
     source ≠ target →
     neighbors_for_person ds source = Ok nbrs →
     (movieId, target) ∈ iter nbrs →
     (∃ sol, runs (S (length (iter nbrs))) (init source) = Some (Ok sol)) ∧
     ∀ c, reach source c → ∀ n, n ∈ frontier c → (depth n ≤ 1)%nat).
Proof.
  assert (Hroot : ∀ c, reach source c →
    ∀ n, n ∈ frontier c → state n = target → n = root source ∧ source = target).
  { intros c Hc n Hn Hst.
    pose proof (frontier_target_root _ _ Hc n Hn Hst) as ->. by split. }
  split; [done|]. split.
  { intros Hne c Hc n Hn Hst. destruct (Hroot c Hc n Hn Hst) as [_ ?]. done. }
  split; [apply step_goal|].
  intros nbrs movieId Hne Hn Hin. split.
  - rewrite run_S, step_init, Hn.
    eapply run_for_finds; simpl; [done|by eauto|set_solver|].
    intros n Hn'. by apply elem_of_nil in Hn'.
  - intros c Hc n Hn'.
    destruct (direct_neighbour_inv _ _ _ _ Hne Hn Hin Hc)
      as [->|(rest & _ & _ & _ & Hfr)].
    + apply list_elem_of_singleton in Hn' as ->. simpl. lia.
    + destruct (Hfr n Hn') as [Hpar _]. destruct n as [st [up|] act]; [|done].
      simpl in Hpar. injection Hpar as ->. simpl. lia.
Qed.

End EarlyGoalCheck.

(** * Searching from a person to themselves *)

Section SelfSearch.

Variable ds : dataset.
Variable pol : policy.
Variable iter : gset (movie_id * person_id) → list (movie_id * person_id).
Variable p : person_id.

Local Abbreviation step1 := (step ds pol iter p).
Local Abbreviation runs := (run ds pol iter p).

(** Where a run can return a solution. *)
Lemma step_returns target c sol :
  step ds pol iter target c = inr (Ok sol) →
  ∃ node movieId rest,
    at_ c = InFor node ((movieId, target) :: rest) ∧
    Frontier.contains_state (frontier c) target = false ∧
    (target ∉ exploredPeople c) ∧
    checkForTargetPerson target target node = Some sol.
Proof.
  unfold step. destruct (at_ c) as [|node [|[m q] rest]] eqn:Hat.
  - destruct (Frontier.empty (frontier c)); [done|].
    destruct (Frontier.remove pol (frontier c)) as [[node fr]|e]; [|done].
    by destruct (neighbors_for_person ds (state node)).
  - done.
  - destruct (Frontier.contains_state (frontier c) q) eqn:Hcs; [done|]. simpl.
    case_bool_decide as Hex; [done|]. simpl.
    destruct (checkForTargetPerson q target node) as [sol'|] eqn:Hchk; [|done].
    intros [= <-]. unfold checkForTargetPerson in Hchk.
    case_bool_decide as Heq; [subst q|done].
    exists node, m, rest. repeat split; try done.
    unfold checkForTargetPerson. by rewrite bool_decide_eq_true_2.
Qed.

(** The source is explored from the first step on, so no later neighbour
    equal to it passes the guard of line 135. *)
Lemma self_search_never_returns fuel : ∀ c,
  c = init p ∨ p ∈ exploredPeople c →
  runs fuel c = None ∨ ∃ e, runs fuel c = Some (Raise e).
Proof.
  induction fuel as [|fuel IH]; intros c Hc; [by left|]. simpl.
  destruct (step1 c) as [c'|[sol|e]] eqn:Hstep.
  - apply IH. right.
    destruct (step_inl _ _ _ _ _ _ Hstep)
      as [(_ & node & nbrs & Hrm & _ & Hex & _)
         |[(node & Hat & _ & _ & Hex)|(node & m & q & rest & Hat & _ & Hex & _)]].
    + destruct Hc as [->|Hc]; [|set_solver].
      simpl in Hrm. unfold Frontier.add in Hrm; simpl in Hrm.
      rewrite remove_singleton in Hrm. injection Hrm as <- _.
      rewrite Hex. set_solver.
    + destruct Hc as [->|Hc]; [done|]. by rewrite Hex.
    + destruct Hc as [->|Hc]; [done|]. by rewrite Hex.
  - exfalso. destruct (step_returns _ _ _ Hstep) as (node & m & rest & Hat & _ & Hex & _).
    destruct Hc as [->|Hc]; done.
  - right. by exists e.
Qed.

End SelfSearch.

(** * Facts about the fixtures and the machine *)

Lemma neighbors_for_person_costar ds p nbrs :
  neighbors_for_person ds p = Ok nbrs → ∀ m q, (m, q) ∈ nbrs ↔ costar ds p m q.
Proof. apply neighbors_for_person_Ok. Qed.

Lemma run_more_fuel ds pol iter target fuel : ∀ c r extra,
  run ds pol iter target fuel c = Some r →
  run ds pol iter target (fuel + extra) c = Some r.
Proof.
  induction fuel as [|fuel IH]; intros c r extra; simpl; [done|].
  destruct (step ds pol iter target c) as [c'|r']; [apply IH|done].
Qed.

Lemma step_exhausted ds pol iter target c :
  at_ c = LoopHead → frontier c = [] →
  step ds pol iter target c = inr (Raise NoSolution).
Proof. intros Hat Hfr. unfold step. by rewrite Hat, Hfr. Qed.

(** * A person among their own co-stars *)

(** Whenever [neighbors_for_person] returns for a person of the loaded
    people table, the set holds the pair (m, p) for every movie m of p's
    movie set; it raises [KeyError] exactly when one of those movie ids is
    missing from the movies table.  In the search loop a pair with the state
    of the node being expanded is not in the frontier by state; it is the
    explored-set check of line 135 that skips it. *)
Theorem self_pair_when_returned {SL : StrLower} :
  (∀ d p pr,
     people (load_data d) !! p = Some pr →
     match neighbors_for_person (load_data d) p with
     | Ok nbrs => ∀ m, m ∈ p_movies pr → (m, p) ∈ nbrs
     | Raise e =>
         e = KeyError ∧ ∃ m, m ∈ p_movies pr ∧ movies (load_data d) !! m = None
     end) ∧
  (∀ ds pol iter target source c node movieId rest,
     reachable ds pol iter target source c →
     at_ c = InFor node ((movieId, state node) :: rest) →
     Frontier.contains_state (frontier c) (state node) = false ∧
     state node ∈ exploredPeople c ∧
     step ds pol iter target c
       = inl (mkConfig (frontier c) (exploredPeople c) (InFor node rest))).
Proof.
  split; [apply neighbors_for_person_self_loaded|].
  intros ds pol iter target source c node movieId rest Hreach Hat.
  destruct (reachable_inv _ _ _ _ _ _ Hreach) as (_ & Hdisj & Hcur).
  rewrite Hat in Hcur.
  assert (Hcs : Frontier.contains_state (frontier c) (state node) = false).
  { apply contains_state_false. intros n Hn Heq. apply (Hdisj n Hn). by rewrite Heq. }
  split; [done|]. split; [done|].
  unfold step. rewrite Hat, Hcs. by rewrite bool_decide_eq_true_2.
Qed.

(** * Termination of the search loop *)

Lemma elem_of_all_stars ds q :
  q ∈ all_stars ds ↔ ∃ m mv, movies ds !! m = Some mv ∧ q ∈ m_stars mv.
Proof.
  unfold all_stars. rewrite elem_of_union_list. split.
  - intros (X & HX & Hq). apply list_elem_of_fmap in HX as (mv & -> & Hmv).
    apply list_elem_of_fmap in Hmv as ([m mv'] & -> & Hin).
    apply elem_of_map_to_list in Hin. by exists m, mv'.
  - intros (m & mv & Hm & Hq). exists (m_stars mv). split; [|done].
    apply list_elem_of_fmap. exists mv. split; [done|].
    apply list_elem_of_fmap. exists (m, mv). split; [done|].
    by apply elem_of_map_to_list.
Qed.

Section Termination.

Variable ds : dataset.
Variable pol : policy.
Variable iter : gset (movie_id * person_id) → list (movie_id * person_id).
Variable target : person_id.
Variable source : person_id.

(** The [for] loop visits elements of the set it iterates over. *)
Hypothesis iter_sound : ∀ s x, x ∈ iter s → x ∈ s.

Local Abbreviation step1 := (step ds pol iter target).
Local Abbreviation runs := (run ds pol iter target).

Lemma terminates_step c c' :
  step1 c = inl c' →
  terminates ds pol iter target c' → terminates ds pol iter target c.
Proof. intros Hstep (fuel & r & Hrun). exists (S fuel), r. simpl. by rewrite Hstep. Qed.

Lemma terminates_stop c r : step1 c = inr r → terminates ds pol iter target c.
Proof. intros Hstep. exists 1%nat, r. simpl. by rewrite Hstep. Qed.

Lemma closed_init : closed ds source (init source).
Proof.
  split; [|done]. intros n ->%list_elem_of_singleton. simpl.
  unfold universe. set_solver.
Qed.

Lemma closed_step c c' :
  closed ds source c → step1 c = inl c' → closed ds source c'.
Proof.
  intros [Hfr Hrest] Hstep. unfold closed.
  destruct (step_inl _ _ _ _ _ _ Hstep)
    as [(_ & node & nbrs & Hrm & Hn & _ & ->)
       |[(node & _ & -> & -> & _)
        |(node & m & p & rest & Hat & -> & _ & Hcase)]].
  - apply remove_Permutation in Hrm. split.
    + intros n Hn'. apply Hfr. rewrite Hrm. by right.
    + intros m q Hin%iter_sound.
      apply (neighbors_for_person_Ok _ _ _ Hn) in Hin as (pr & mv & _ & _ & Hmv & Hq).
      unfold universe. apply elem_of_union_r, elem_of_all_stars. by exists m, mv.
  - done.
  - rewrite Hat in Hrest. split.
    + intros n Hn. destruct Hcase as [(_ & _ & _ & Hadd)|[_ Hsame]].
      * rewrite Hadd in Hn.
        apply elem_of_app in Hn as [Hn|Hn%list_elem_of_singleton]; [by apply Hfr|].
        subst n. simpl. apply (Hrest m). by left.
      * rewrite Hsame in Hn. by apply Hfr.
    + intros m' q Hin. apply (Hrest m'). by right.
Qed.

Lemma sound_config_step c c' :
  sound_config ds source c → step1 c = inl c' → sound_config ds source c'.
Proof.
  intros [Hinv Hcl] Hstep. split; [by eapply step_inv|by eapply closed_step].
Qed.

Lemma for_terminates rest : ∀ c node,
  at_ c = InFor node rest → sound_config ds source c →
  (∀ c', at_ c' = LoopHead → sound_config ds source c' →
         exploredPeople c' = exploredPeople c → terminates ds pol iter target c') →
  terminates ds pol iter target c.
Proof.
  induction rest as [|[m q] rest IH]; intros c node Hat Hc Hcont;
    destruct (step1 c) as [c'|r] eqn:Hstep; try by eapply terminates_stop.
  - eapply terminates_step; [done|].
    destruct (step_inl _ _ _ _ _ _ Hstep)
      as [(Hat' & _)|[(node' & _ & Hat' & _ & Hex)|(? & ? & ? & ? & Hat' & _)]];
      [congruence| |congruence].
    apply Hcont; [done|by eapply sound_config_step|done].
  - eapply terminates_step; [done|].
    destruct (step_inl _ _ _ _ _ _ Hstep)
      as [(Hat' & _)|[(node' & Hat' & _)
         |(node' & m' & q' & rest' & Hat0 & Hat' & Hex & _)]];
      [congruence..|].
    rewrite Hat in Hat0. injection Hat0 as <- <- <- <-.
    apply (IH c' node Hat'); [by eapply sound_config_step|].
    intros c'' Hat'' Hc'' Hex''. apply Hcont; [done..|congruence].
Qed.

Lemma loop_terminates k : ∀ c,
  at_ c = LoopHead → sound_config ds source c →
  (size (universe ds source ∖ exploredPeople c) ≤ k)%nat →
  terminates ds pol iter target c.
Proof.
  induction k as [|k IH]; intros c Hat Hc Hsize;
    destruct (step1 c) as [c'|r] eqn:Hstep; try by eapply terminates_stop.
  all: eapply terminates_step; [done|].
  all: destruct (step_inl _ _ _ _ _ _ Hstep)
      as [(_ & node & nbrs & Hrm & _ & Hex & Hat')
         |[(node' & Hat' & _)|(? & ? & ? & ? & Hat' & _)]]; [|congruence..].
  all: apply remove_Permutation in Hrm.
  all: assert (Hnode : node ∈ frontier c) by (rewrite Hrm; by left).
  all: destruct Hc as [(Hnd & Hdisj & Hcur) [Hfr Hrest]].
  all: assert (Hin : state node ∈ universe ds source ∖ exploredPeople c)
      by (apply elem_of_difference; split; [by apply Hfr|by apply Hdisj]).
  - exfalso. assert (Hempty : universe ds source ∖ exploredPeople c ≡ ∅).
    { apply size_empty_inv. lia. }
    rewrite Hempty in Hin. by apply not_elem_of_empty in Hin.
  - assert (Hc' : sound_config ds source c').
    { eapply sound_config_step; [|done]. by split. }
    apply (for_terminates _ _ _ Hat' Hc').
    intros c'' Hat'' Hc'' Hex''. apply IH; [done..|].
    rewrite Hex'', Hex.
    assert (Hlt : (size (universe ds source ∖ (exploredPeople c ∪ {[state node]}))
                   < size (universe ds source ∖ exploredPeople c))%nat).
    { apply subset_size. set_solver. }
    lia.
Qed.

(** Every call ends: it returns or raises after finitely many steps. *)
Lemma search_terminates : terminates ds pol iter target (init source).
Proof.
  eapply loop_terminates; [done| |done].
  split; [apply init_inv|apply closed_init].
Qed.

End Termination.

(** * What a returned solution is made of *)

Lemma walk_parents_people node : ∀ mvs ppl st,
  st ∈ (walk_parents node mvs ppl).2 → st ∈ ppl ∨ st ∈ chain_states node.
Proof.
  induction node as [st0 act|st0 up act IH] using Node_parent_ind;
    intros mvs ppl st; simpl; [by left|].
  intros [Hin|Hin]%IH; [|right; by right].
  apply elem_of_app in Hin as [Hin|Hin%list_elem_of_singleton]; [by left|].
  right. subst st. by left.
Qed.

Lemma walk_parents_lengths node : ∀ mvs ppl,
  length mvs = length ppl →
  length (walk_parents node mvs ppl).1 = length (walk_parents node mvs ppl).2.
Proof.
  induction node as [st0 act|st0 up act IH] using Node_parent_ind;
    intros mvs ppl Hlen; simpl; [done|].
  apply IH. rewrite !length_app. simpl. lia.
Qed.

Lemma checkForTargetPerson_people cur target node mvs ppl :
  checkForTargetPerson cur target node = Some (mvs, ppl) →
  cur = target ∧ length mvs = length ppl ∧
  ∀ st, st ∈ ppl → st ∈ chain_states node.
Proof.
  unfold checkForTargetPerson. case_bool_decide as Heq; [|done].
  destruct (walk_parents node [] []) as [mvs0 ppl0] eqn:Hwalk.
  intros [= <- <-]. split; [done|]. split.
  - rewrite !length_reverse.
    pose proof (walk_parents_lengths node [] [] eq_refl) as Hlen.
    by rewrite Hwalk in Hlen.
  - intros st Hin. rewrite elem_of_reverse in Hin.
    destruct (walk_parents_people node [] [] st) as [Hnil|Hch];
      [rewrite Hwalk; exact Hin| |done].
    by apply elem_of_nil in Hnil.
Qed.

Section Solutions.

Variable ds : dataset.
Variable pol : policy.
Variable iter : gset (movie_id * person_id) → list (movie_id * person_id).
Variable target : person_id.
Variable source : person_id.

Local Abbreviation step1 := (step ds pol iter target).
Local Abbreviation runs := (run ds pol iter target).
Local Abbreviation reach := (reachable ds pol iter target).

Lemma chain_states_parent n :
  ∀ st, st ∈ chain_states n →
        st = state n ∨ ∃ up, parent n = Some up ∧ st ∈ chain_states up.
Proof.
  destruct n as [st0 [up|] act]; simpl; intros st Hin.
  - apply elem_of_cons in Hin as [->|Hin]; [by left|right; by exists up].
  - apply list_elem_of_singleton in Hin. by left.
Qed.

Lemma reachable_ancestors_explored c : reach source c → ancestors_explored c.
Proof.
  induction 1 as [|c c' _ [IHfr IHcur] Hstep].
  - split; [|done]. intros n up ->%list_elem_of_singleton. done.
  - unfold ancestors_explored.
    destruct (step_inl _ _ _ _ _ _ Hstep)
      as [(_ & node & nbrs & Hrm & _ & -> & ->)
         |[(node & _ & -> & -> & ->)
          |(node & m & p & rest & Hat & -> & -> & Hcase)]].
    + apply remove_Permutation in Hrm. split.
      * intros n up Hn Hup st Hst. apply elem_of_union_l.
        eapply IHfr; [|done..]. rewrite Hrm. by right.
      * intros st [->|(up & Hup & Hst)]%chain_states_parent; [set_solver|].
        apply elem_of_union_l. eapply IHfr; [|done..]. rewrite Hrm. by left.
    + done.
    + rewrite Hat in IHcur. split; [|done].
      intros n up Hn Hup. destruct Hcase as [(_ & _ & _ & Hadd)|[_ Hsame]].
      * rewrite Hadd in Hn.
        apply elem_of_app in Hn as [Hn|Hn%list_elem_of_singleton]; [by eapply IHfr|].
        subst n. simpl in Hup. injection Hup as <-. done.
      * rewrite Hsame in Hn. by eapply IHfr.
Qed.

(** Whatever a run returns, the target is not among the people returned and
    the two lists are equally long. *)
Lemma solution_excludes_target c mvs ppl :
  reach source c → step1 c = inr (Ok (mvs, ppl)) →
  (target ∉ ppl) ∧ length mvs = length ppl.
Proof.
  intros Hreach Hstep.
  destruct (step_returns _ _ _ _ _ _ Hstep) as (node & m & rest & Hat & _ & Hex & Hchk).
  apply checkForTargetPerson_people in Hchk as (_ & Hlen & Hppl).
  split; [|done]. intros Hin. apply Hex.
  destruct (reachable_ancestors_explored _ Hreach) as [_ Hcur].
  rewrite Hat in Hcur. by apply Hcur, Hppl.
Qed.

Lemma run_reaches fuel : ∀ c r,
  reach source c → runs fuel c = Some r →
  ∃ c', reach source c' ∧ step1 c' = inr r.
Proof.
  induction fuel as [|fuel IH]; intros c r Hreach; simpl; [done|].
  destruct (step1 c) as [c'|r'] eqn:Hstep.
  - apply IH. by eapply reach_step.
  - intros [= <-]. by exists c.
Qed.

(** The people of a returned solution never include the target. *)
Lemma shortest_path_excludes_target fuel mvs ppl :
  shortest_path_with pol iter ds source target fuel = Some (Ok (mvs, ppl)) →
  (target ∉ ppl) ∧ length mvs = length ppl.
Proof.
  intros Hrun.
  destruct (run_reaches _ _ _ (reach_init _ _ _ _ _) Hrun) as (c & Hreach & Hstep).
  by eapply solution_excludes_target.
Qed.

(** ** Soundness: a solution is returned only along a co-star path *)

Hypothesis iter_sound : ∀ s x, x ∈ iter s → x ∈ s.

Lemma is_path_snoc a path b m q :
  is_path ds a path b → costar ds b m q → is_path ds a (path ++ [(m, q)]) q.
Proof.
  revert a. induction path as [|[m0 q0] path IH]; intros a; simpl.
  - by intros ->.
  - intros [Hco Hpath] Hlast. split; [done|by apply IH].
Qed.

Lemma reachable_connected c : reach source c → connected ds source c.
Proof.
  induction 1 as [|c c' _ [IHfr IHcur] Hstep].
  - split; [|done]. intros n ->%list_elem_of_singleton. by exists [].
  - unfold connected.
    destruct (step_inl _ _ _ _ _ _ Hstep)
      as [(_ & node & nbrs & Hrm & Hn & _ & ->)
         |[(node & _ & -> & -> & _)
          |(node & m & p & rest & Hat & -> & _ & Hcase)]].
    + apply remove_Permutation in Hrm. split; [|split].
      * intros n Hn'. apply IHfr. rewrite Hrm. by right.
      * apply IHfr. rewrite Hrm. by left.
      * intros m q Hin%iter_sound. by apply (neighbors_for_person_costar _ _ _ Hn).
    + done.
    + rewrite Hat in IHcur. destruct IHcur as [[path Hpath] Hrest]. split; [|split].
      * intros n Hn. destruct Hcase as [(_ & _ & _ & Hadd)|[_ Hsame]].
        -- rewrite Hadd in Hn.
           apply elem_of_app in Hn as [Hn|Hn%list_elem_of_singleton]; [by apply IHfr|].
           subst n. simpl. exists (path ++ [(m, p)]).
           eapply is_path_snoc; [done|]. apply Hrest. by left.
        -- rewrite Hsame in Hn. by apply IHfr.
      * by exists path.
      * intros m' q Hin. apply Hrest. by right.
Qed.

Lemma solution_needs_path fuel sol :
  shortest_path_with pol iter ds source target fuel = Some (Ok sol) →
  ∃ path, is_path ds source path target.
Proof.
  intros Hrun.
  destruct (run_reaches _ _ _ (reach_init _ _ _ _ _) Hrun) as (c & Hreach & Hstep).
  destruct (step_returns _ _ _ _ _ _ Hstep) as (node & m & rest & Hat & _).
  destruct (reachable_connected _ Hreach) as [_ Hcur]. rewrite Hat in Hcur.
  destruct Hcur as [[path Hpath] Hrest].
  exists (path ++ [(m, target)]). eapply is_path_snoc; [done|]. apply Hrest. by left.
Qed.

(** Between people that no co-star path connects, every call ends by
    raising an exception. *)
Lemma disconnected_search_raises :
  (∀ path, ¬ is_path ds source path target) →
  ∃ fuel e, shortest_path_with pol iter ds source target fuel = Some (Raise e).
Proof.
  intros Hnone.
  destruct (search_terminates ds pol iter target source iter_sound) as (fuel & r & Hrun).
  exists fuel. destruct r as [sol|e]; [|by exists e].
  destruct (solution_needs_path fuel sol Hrun) as [path Hpath]. by destruct (Hnone path).
Qed.

End Solutions.

(** * Searching from a person to themselves, concluded *)

(** C8: [shortest_path(p, p)] has no special case for a zero-length path.
    The call runs the ordinary loop; since [p] is marked explored when the
    root is dequeued, no neighbour equal to [p] passes the guard, so the call
    returns no path, neither an empty nor a longer one, and ends by raising
    an exception. *)
Theorem self_search_not_special_cased ds pol iter p :
  (∀ s x, x ∈ iter s → x ∈ s) →
  (∀ fuel, shortest_path_with pol iter ds p p fuel = None ∨
           ∃ e, shortest_path_with pol iter ds p p fuel = Some (Raise e)) ∧
  ∃ fuel e, shortest_path_with pol iter ds p p fuel = Some (Raise e).
Proof.
  intros Hiter.
  assert (Hnever : ∀ fuel,
    shortest_path_with pol iter ds p p fuel = None ∨
    ∃ e, shortest_path_with pol iter ds p p fuel = Some (Raise e)).
  { intros fuel. apply self_search_never_returns. by left. }
  split; [done|].
  destruct (search_terminates ds pol iter p p Hiter) as (fuel & r & Hrun).
  exists fuel. destruct (Hnever fuel) as [Hnone|[e He]].
  - unfold shortest_path_with in Hnone. congruence.
  - by exists e.
Qed.

(** * The loaded tables, row by row *)

Lemma foldl_snoc {A B : Type} (f : A → B → A) (l : list B) (x : B) :
  ∀ a, foldl f a (l ++ [x]) = f (foldl f a l) x.
Proof. induction l as [|y l IH]; intros a; simpl; [done|apply IH]. Qed.

(** ** One row at a time *)

Lemma load_star_names ds row : names (load_star ds row) = names ds.
Proof.
  unfold load_star. destruct (people ds !! sr_person_id row); [|done].
  by destruct (movies ds !! sr_movie_id row).
Qed.

Lemma load_star_people ds row p :
  people (load_star ds row) !! p =
  (λ pr, if decide (sr_person_id row = p)
         then mkPerson (p_name pr) (p_birth pr) (p_movies pr ∪ {[sr_movie_id row]})
         else pr) <$> people ds !! p.
Proof.
  unfold load_star.
  destruct (people ds !! sr_person_id row) as [p0|] eqn:Hp0.
  - assert (Hlook : <[sr_person_id row :=
                       mkPerson (p_name p0) (p_birth p0)
                                (p_movies p0 ∪ {[sr_movie_id row]})]> (people ds) !! p
                    = (λ pr, if decide (sr_person_id row = p)
                             then mkPerson (p_name pr) (p_birth pr)
                                           (p_movies pr ∪ {[sr_movie_id row]})
                             else pr) <$> people ds !! p).
    { rewrite lookup_insert. destruct (decide (sr_person_id row = p)) as [Heq|Hne].
      - subst p. by rewrite Hp0.
      - by destruct (people ds !! p). }
    by destruct (movies ds !! sr_movie_id row).
  - destruct (people ds !! p) as [pr|] eqn:Hp; simpl; [|done].
    destruct (decide (sr_person_id row = p)) as [Heq|Hne]; [congruence|done].
Qed.

Lemma load_star_movies ds row m :
  movies (load_star ds row) !! m =
  (λ mv, if decide (sr_movie_id row = m ∧ is_Some (people ds !! sr_person_id row))
         then mkMovie (m_title mv) (m_year mv) (m_stars mv ∪ {[sr_person_id row]})
         else mv) <$> movies ds !! m.
Proof.
  unfold load_star.
  destruct (people ds !! sr_person_id row) as [p0|] eqn:Hp0.
  - destruct (movies ds !! sr_movie_id row) as [m0|] eqn:Hm0; simpl.
    + rewrite lookup_insert. destruct (decide (sr_movie_id row = m)) as [Heq|Hne].
      * subst m. rewrite Hm0. simpl. case_decide as Hd; [done|].
        exfalso. apply Hd. by split.
      * destruct (movies ds !! m); simpl; [|done].
        case_decide as Hd; [by destruct Hd|done].
    + destruct (movies ds !! m) as [mv|] eqn:Hm; simpl; [|done].
      case_decide as Hd; [|done]. destruct Hd as [Heq _]. congruence.
  - destruct (movies ds !! m) as [mv|] eqn:Hm; simpl; [|done].
    case_decide as Hd; [|done]. destruct Hd as [_ [? ?]]. congruence.
Qed.

Lemma load_stars_names rows : ∀ ds, names (foldl load_star ds rows) = names ds.
Proof.
  induction rows as [|row rows IH]; intros ds; simpl; [done|].
  by rewrite IH, load_star_names.
Qed.

Lemma load_stars_people_dom rows : ∀ ds p,
  is_Some (people (foldl load_star ds rows) !! p) ↔ is_Some (people ds !! p).
Proof.
  induction rows as [|row rows IH]; intros ds p; simpl; [done|].
  rewrite IH, load_star_people. apply fmap_is_Some.
Qed.

Lemma load_stars_movies_dom rows : ∀ ds m,
  is_Some (movies (foldl load_star ds rows) !! m) ↔ is_Some (movies ds !! m).
Proof.
  induction rows as [|row rows IH]; intros ds m; simpl; [done|].
  rewrite IH, load_star_movies. apply fmap_is_Some.
Qed.

(** The movie set of a person after the stars rows: what it held before
    and the movies of the rows that name the person. *)
Lemma load_stars_movie_set rows : ∀ ds p pr',
  people (foldl load_star ds rows) !! p = Some pr' →
  ∃ pr, people ds !! p = Some pr ∧
        p_name pr' = p_name pr ∧ p_birth pr' = p_birth pr ∧
        ∀ m, m ∈ p_movies pr' ↔
             m ∈ p_movies pr ∨
             ∃ row, row ∈ rows ∧ sr_person_id row = p ∧ sr_movie_id row = m.
Proof.
  induction rows as [|row rows IH]; intros ds p pr' Hp; simpl in *.
  - exists pr'. do 3 (split; [done|]). intros m. split; [by left|].
    intros [?|(r & Hin & _)]; [done|]. by apply elem_of_nil in Hin.
  - destruct (IH _ _ _ Hp) as (pr1 & Hp1 & Hname & Hbirth & Hset).
    rewrite load_star_people in Hp1.
    destruct (people ds !! p) as [pr|] eqn:Hp0; [|done]. simpl in Hp1.
    injection Hp1 as <-. exists pr. split; [done|].
    destruct (decide (sr_person_id row = p)) as [Heq|Hne]; simpl in *.
    + do 2 (split; [done|]). intros m.
      rewrite Hset, elem_of_union, elem_of_singleton. split.
      * intros [[?|Hm]|(r & Hr & ? & ?)]; [by left| |].
        -- right. exists row. split; [by left|done].
        -- right. exists r. split; [by right|done].
      * intros [?|(r & Hr & Hrp & Hrm)]; [by left; left|].
        apply elem_of_cons in Hr as [->|Hr]; [left; by right|].
        right. by exists r.
    + do 2 (split; [done|]). intros m. rewrite Hset. split.
      * intros [?|(r & Hr & ? & ?)]; [by left|].
        right. exists r. split; [by right|done].
      * intros [?|(r & Hr & Hrp & Hrm)]; [by left|].
        apply elem_of_cons in Hr as [->|Hr]; [done|]. right. by exists r.
Qed.

(** The star set of a movie after the stars rows: what it held before and
    the people of the rows that name the movie and a person of the table. *)
Lemma load_stars_star_set rows : ∀ ds m mv',
  movies (foldl load_star ds rows) !! m = Some mv' →
  ∃ mv, movies ds !! m = Some mv ∧
        m_title mv' = m_title mv ∧ m_year mv' = m_year mv ∧
        ∀ p, p ∈ m_stars mv' ↔
             p ∈ m_stars mv ∨
             (is_Some (people ds !! p) ∧
              ∃ row, row ∈ rows ∧ sr_person_id row = p ∧ sr_movie_id row = m).
Proof.
  induction rows as [|row rows IH]; intros ds m mv' Hm; simpl in *.
  - exists mv'. do 3 (split; [done|]). intros p. split; [by left|].
    intros [?|(_ & r & Hin & _)]; [done|]. by apply elem_of_nil in Hin.
  - destruct (IH _ _ _ Hm) as (mv1 & Hm1 & Htitle & Hyear & Hset).
    rewrite load_star_movies in Hm1.
    destruct (movies ds !! m) as [mv|] eqn:Hm0; [|done]. simpl in Hm1.
    injection Hm1 as <-. exists mv. split; [done|].
    assert (Hdom : ∀ p, is_Some (people (load_star ds row) !! p)
                        ↔ is_Some (people ds !! p)).
    { intros p. rewrite load_star_people. apply fmap_is_Some. }
    destruct (decide (sr_movie_id row = m ∧ is_Some (people ds !! sr_person_id row)))
      as [[Heq Hsome]|Hne]; simpl in *.
    + do 2 (split; [done|]). intros p.
      rewrite Hset, Hdom, elem_of_union, elem_of_singleton. split.
      * intros [[?|Hp]|(Hp & r & Hr & ? & ?)]; [by left| |].
        -- right. subst p. split; [done|]. exists row. split; [by left|done].
        -- right. split; [done|]. exists r. split; [by right|done].
      * intros [?|(Hp & r & Hr & Hrp & Hrm)]; [by left; left|].
        apply elem_of_cons in Hr as [->|Hr]; [left; by right|].
        right. split; [done|]. by exists r.
    + do 2 (split; [done|]). intros p. rewrite Hset, Hdom. split.
      * intros [?|(Hp & r & Hr & ? & ?)]; [by left|].
        right. split; [done|]. exists r. split; [by right|done].
      * intros [?|(Hp & r & Hr & Hrp & Hrm)]; [by left|].
        apply elem_of_cons in Hr as [->|Hr].
        -- exfalso. apply Hne. split; [done|]. by rewrite Hrp.
        -- right. split; [done|]. by exists r.
Qed.

Lemma load_person_names {SL : StrLower} ds row k id :
  id ∈ default ∅ (names (load_person ds row) !! k) ↔
  id ∈ default ∅ (names ds !! k) ∨ (pr_id row = id ∧ lower (pr_name row) = k).
Proof.
  unfold load_person; simpl.
  destruct (names ds !! lower (pr_name row)) as [ids|] eqn:Hk.
  - rewrite lookup_insert. destruct (decide (lower (pr_name row) = k)) as [<-|Hne]; simpl.
    + rewrite Hk; simpl. rewrite elem_of_union, elem_of_singleton. naive_solver.
    + naive_solver.
  - rewrite lookup_insert. destruct (decide (lower (pr_name row) = k)) as [<-|Hne]; simpl.
    + rewrite Hk; simpl. rewrite elem_of_singleton. set_solver.
    + naive_solver.
Qed.

Lemma load_people_names {SL : StrLower} rows : ∀ ds k id,
  id ∈ default ∅ (names (foldl load_person ds rows) !! k) ↔
  id ∈ default ∅ (names ds !! k) ∨
  ∃ row, row ∈ rows ∧ pr_id row = id ∧ lower (pr_name row) = k.
Proof.
  induction rows as [|row rows IH]; intros ds k id; simpl.
  - split; [by left|]. intros [?|(r & Hin & _)]; [done|]. by apply elem_of_nil in Hin.
  - rewrite IH, load_person_names. split.
    + intros [[?|[? ?]]|(r & Hr & ? & ?)]; [by left| |].
      * right. exists row. split; [by left|done].
      * right. exists r. split; [by right|done].
    + intros [?|(r & Hr & Hid & Hname)]; [by left; left|].
      apply elem_of_cons in Hr as [->|Hr]; [left; by right|]. right. by exists r.
Qed.

Lemma load_people_entry {SL : StrLower} rows : ∀ ds p pr,
  people (foldl load_person ds rows) !! p = Some pr →
  people ds !! p = Some pr ∨
  ∃ row, row ∈ rows ∧ pr_id row = p ∧
         pr = mkPerson (pr_name row) (pr_birth row) ∅.
Proof.
  induction rows as [|row rows IH]; intros ds p pr Hp; simpl in *; [by left|].
  destruct (IH _ _ _ Hp) as [Hp1|(r & Hr & ? & ?)].
  - unfold load_person in Hp1; simpl in Hp1. rewrite lookup_insert in Hp1.
    destruct (decide (pr_id row = p)) as [Heq|Hne]; [|by left].
    injection Hp1 as <-. right. exists row. split; [by left|done].
  - right. exists r. split; [by right|done].
Qed.

Lemma load_people_dom {SL : StrLower} rows : ∀ ds p,
  is_Some (people (foldl load_person ds rows) !! p) ↔
  is_Some (people ds !! p) ∨ p ∈ pr_id <$> rows.
Proof.
  induction rows as [|row rows IH]; intros ds p; simpl.
  - split; [by left|]. intros [?|Hin]; [done|]. by apply elem_of_nil in Hin.
  - rewrite IH. unfold load_person; simpl. rewrite lookup_insert, elem_of_cons.
    destruct (decide (pr_id row = p)) as [Heq|Hne]; naive_solver.
Qed.

Lemma load_people_movies {SL : StrLower} rows : ∀ ds, movies (foldl load_person ds rows) = movies ds.
Proof. induction rows as [|row rows IH]; intros ds; simpl; [done|]. by rewrite IH. Qed.

Lemma load_movies_names rows : ∀ ds, names (foldl load_movie ds rows) = names ds.
Proof. induction rows as [|row rows IH]; intros ds; simpl; [done|]. by rewrite IH. Qed.

Lemma load_movies_people rows : ∀ ds, people (foldl load_movie ds rows) = people ds.
Proof. induction rows as [|row rows IH]; intros ds; simpl; [done|]. by rewrite IH. Qed.

Lemma load_movies_entry rows : ∀ ds m mv,
  movies (foldl load_movie ds rows) !! m = Some mv →
  movies ds !! m = Some mv ∨
  ∃ row, row ∈ rows ∧ mr_id row = m ∧
         mv = mkMovie (mr_title row) (mr_year row) ∅.
Proof.
  induction rows as [|row rows IH]; intros ds m mv Hm; simpl in *; [by left|].
  destruct (IH _ _ _ Hm) as [Hm1|(r & Hr & ? & ?)].
  - unfold load_movie in Hm1; simpl in Hm1. rewrite lookup_insert in Hm1.
    destruct (decide (mr_id row = m)) as [Heq|Hne]; [|by left].
    injection Hm1 as <-. right. exists row. split; [by left|done].
  - right. exists r. split; [by right|done].
Qed.

Lemma load_movies_dom rows : ∀ ds m,
  is_Some (movies (foldl load_movie ds rows) !! m) ↔
  is_Some (movies ds !! m) ∨ m ∈ mr_id <$> rows.
Proof.
  induction rows as [|row rows IH]; intros ds m; simpl.
  - split; [by left|]. intros [?|Hin]; [done|]. by apply elem_of_nil in Hin.
  - rewrite IH. unfold load_movie; simpl. rewrite lookup_insert, elem_of_cons.
    destruct (decide (mr_id row = m)) as [Heq|Hne]; naive_solver.
Qed.

(** ** The tables [load_data] builds *)

Lemma loaded_table_keys {SL : StrLower} d :
  (∀ p, is_Some (people (load_data d) !! p) ↔ p ∈ pr_id <$> people_csv d) ∧
  (∀ m, is_Some (movies (load_data d) !! m) ↔ m ∈ mr_id <$> movies_csv d).
Proof.
  unfold load_data, load_data_from. split.
  - intros p. rewrite load_stars_people_dom, load_movies_people, load_people_dom.
    simpl. rewrite lookup_empty. split; [|by right].
    intros [[? ?]|?]; [done|done].
  - intros m. rewrite load_stars_movies_dom, load_movies_dom, load_people_movies.
    simpl. rewrite lookup_empty. split; [|by right].
    intros [[? ?]|?]; [done|done].
Qed.

Lemma loaded_person_entry {SL : StrLower} d p pr :
  people (load_data d) !! p = Some pr →
  (∃ row, row ∈ people_csv d ∧ pr_id row = p ∧
          p_name pr = pr_name row ∧ p_birth pr = pr_birth row) ∧
  ∀ m, m ∈ p_movies pr ↔
       ∃ srow, srow ∈ stars_csv d ∧ sr_person_id srow = p ∧ sr_movie_id srow = m.
Proof.
  unfold load_data, load_data_from. intros Hp.
  apply load_stars_movie_set in Hp as (pr0 & Hp0 & Hname & Hbirth & Hset).
  rewrite load_movies_people in Hp0.
  apply load_people_entry in Hp0 as [Hp0|(row & Hrow & Hid & ->)];
    [simpl in Hp0; by rewrite lookup_empty in Hp0|].
  split; [by exists row|].
  intros m. rewrite Hset. simpl. split; [|by right].
  intros [Hin|?]; [|done]. by apply not_elem_of_empty in Hin.
Qed.

(** A person's entry carries the name and birth of a people.csv row with that
    id, and its movie set holds exactly the movie ids of the stars rows that
    name the person, whether or not movies.csv has them. *)
Theorem load_data_person_entry {SL : StrLower} d p pr :
  people (load_data d) !! p = Some pr →
  (∃ row, row ∈ people_csv d ∧ pr_id row = p ∧
          p_name pr = pr_name row ∧ p_birth pr = pr_birth row) ∧
  ∀ m, m ∈ p_movies pr ↔
       ∃ srow, srow ∈ stars_csv d ∧ sr_person_id srow = p ∧ sr_movie_id srow = m.
Proof. apply loaded_person_entry. Qed.

Lemma loaded_movie_entry {SL : StrLower} d m mv :
  movies (load_data d) !! m = Some mv →
  (∃ row, row ∈ movies_csv d ∧ mr_id row = m ∧
          m_title mv = mr_title row ∧ m_year mv = mr_year row) ∧
  ∀ p, p ∈ m_stars mv ↔
       p ∈ pr_id <$> people_csv d ∧
       ∃ srow, srow ∈ stars_csv d ∧ sr_person_id srow = p ∧ sr_movie_id srow = m.
Proof.
  unfold load_data, load_data_from. intros Hm.
  apply load_stars_star_set in Hm as (mv0 & Hm0 & Htitle & Hyear & Hset).
  apply load_movies_entry in Hm0 as [Hm0|(row & Hrow & Hid & ->)].
  { rewrite load_people_movies in Hm0. simpl in Hm0. by rewrite lookup_empty in Hm0. }
  split; [by exists row|].
  intros p. rewrite Hset, load_movies_people, load_people_dom. simpl.
  rewrite lookup_empty. split.
  - intros [Hin|[[[? ?]|Hin] Hrow']]; [by apply not_elem_of_empty in Hin|done|done].
  - intros [Hin Hrow']. right. split; [by right|done].
Qed.

(** A movie's entry carries the title and year of a movies.csv row with that
    id, and its star set holds exactly the people of the people table that a
    stars row pairs with the movie. *)
Theorem load_data_movie_entry {SL : StrLower} d m mv :
  movies (load_data d) !! m = Some mv →
  (∃ row, row ∈ movies_csv d ∧ mr_id row = m ∧
          m_title mv = mr_title row ∧ m_year mv = mr_year row) ∧
  ∀ p, p ∈ m_stars mv ↔
       p ∈ pr_id <$> people_csv d ∧
       ∃ srow, srow ∈ stars_csv d ∧ sr_person_id srow = p ∧ sr_movie_id srow = m.
Proof. apply loaded_movie_entry. Qed.

Lemma loaded_name_index {SL : StrLower} d n id :
  id ∈ candidates (load_data d) n ↔
  ∃ row, row ∈ people_csv d ∧ pr_id row = id ∧ lower (pr_name row) = lower n.
Proof.
  unfold candidates, load_data, load_data_from.
  rewrite load_stars_names, load_movies_names, load_people_names. simpl.
  rewrite lookup_empty. simpl. split; [|by right].
  intros [Hin|?]; [|done]. by apply not_elem_of_empty in Hin.
Qed.

(** Star sets and movie sets agree: a person of the people table is in the
    star set of a movie of the movies table exactly when the movie is in the
    person's movie set, and nobody else is in a star set. *)
Theorem load_data_stars_agree {SL : StrLower} d m mv p :
  movies (load_data d) !! m = Some mv →
  p ∈ m_stars mv ↔
  ∃ pr, people (load_data d) !! p = Some pr ∧ m ∈ p_movies pr.
Proof.
  intros Hm. split.
  - intros Hp. destruct (load_data_stars_known d m mv p Hm Hp) as [pr Hpr].
    exists pr. split; [done|].
    apply (loaded_movie_entry d m mv Hm) in Hp as [_ Hrow].
    by apply (loaded_person_entry d p pr Hpr).
  - intros (pr & Hpr & Hin). by eapply load_data_stars_consistent.
Qed.

(** The keys of the people and movies tables are the ids of people.csv and
    movies.csv: a stars row never creates an entry. *)
Theorem load_data_table_keys {SL : StrLower} d :
  (∀ p, is_Some (people (load_data d) !! p) ↔ p ∈ pr_id <$> people_csv d) ∧
  (∀ m, is_Some (movies (load_data d) !! m) ↔ m ∈ mr_id <$> movies_csv d).
Proof. apply loaded_table_keys. Qed.

(** The name index: the candidates for a name are exactly the ids of the
    people.csv rows whose name is the same once both are lower-cased. *)
Theorem load_data_name_index {SL : StrLower} d n id :
  id ∈ candidates (load_data d) n ↔
  ∃ row, row ∈ people_csv d ∧ pr_id row = id ∧ lower (pr_name row) = lower n.
Proof. apply loaded_name_index. Qed.

(** * Name resolution on the loaded tables *)

Lemma candidates_loaded_known {SL : StrLower} d n id :
  id ∈ candidates (load_data d) n → is_Some (people (load_data d) !! id).
Proof.
  intros (row & Hrow & <- & _)%loaded_name_index.
  apply loaded_table_keys. apply list_elem_of_fmap. by exists row.
Qed.

Lemma person_id_for_name_unique {SL : StrLower} ds n typed id :
  candidates ds n = {[id]} → person_id_for_name ds n typed = Ok (Some id).
Proof. unfold person_id_for_name. intros ->. by rewrite elements_singleton. Qed.

Lemma person_id_for_name_ambiguous {SL : StrLower} ds n typed :
  (2 ≤ size (candidates ds n))%nat →
  (∀ id, id ∈ candidates ds n → is_Some (people ds !! id)) →
  person_id_for_name ds n typed
  = Ok (if bool_decide (typed ∈ candidates ds n) then Some typed else None).
Proof.
  unfold person_id_for_name. intros Hsize Hknown.
  assert (Hlen : length (elements (candidates ds n)) = size (candidates ds n)) by done.
  destruct (elements (candidates ds n)) as [|id1 [|id2 ids]] eqn:Hel;
    [simpl in Hlen; lia..|].
  assert (Hall : forallb (λ pid, bool_decide (is_Some (people ds !! pid)))
                         (id1 :: id2 :: ids) = true).
  { apply forallb_forall. intros id Hid%list_elem_of_In.
    apply bool_decide_eq_true, Hknown, elem_of_elements. by rewrite Hel. }
  rewrite Hall. f_equal. rewrite <- Hel.
  by rewrite (bool_decide_ext _ _ (elem_of_elements (candidates ds n) typed)).
Qed.

(** On loaded tables the resolver never raises.  Without a match it returns
    [None]; with one candidate it returns that id whatever is typed; with
    several it returns the typed id if that is one of the candidates and
    [None] otherwise. *)
Theorem person_id_for_name_loaded {SL : StrLower} d n typed :
  let c := candidates (load_data d) n in
  ∃ r, person_id_for_name (load_data d) n typed = Ok r ∧
       (∀ id, r = Some id → id ∈ c) ∧
       (c = ∅ → r = None) ∧
       (∀ id, c = {[id]} → r = Some id) ∧
       ((2 ≤ size c)%nat → r = if bool_decide (typed ∈ c) then Some typed else None).
Proof.
  intros c.
  destruct (decide (size c = 0%nat)) as [Hzero|Hnz].
  { apply size_empty_iff, leibniz_equiv in Hzero.
    exists None. split; [by apply person_id_for_name_no_match|].
    split; [done|]. split; [done|]. split.
    - intros id Hid. rewrite Hid in Hzero. set_solver.
    - rewrite Hzero, size_empty. lia. }
  destruct (decide (size c = 1%nat)) as [Hone|Hmany].
  { apply size_1_elem_of in Hone as [id Hid]. apply leibniz_equiv in Hid.
    exists (Some id). split; [by apply person_id_for_name_unique|]. split.
    - intros id' [= <-]. rewrite Hid. set_solver.
    - split; [intros Hc; rewrite Hc in Hid; set_solver|]. split.
      + intros id' Hid'. rewrite Hid' in Hid. f_equal.
        assert (id' ∈ ({[id]} : gset string)) by (rewrite <- Hid; set_solver).
        set_solver.
      + rewrite Hid, size_singleton. lia. }
  assert (Hsize : (2 ≤ size c)%nat) by lia.
  exists (if bool_decide (typed ∈ c) then Some typed else None). split.
  { apply person_id_for_name_ambiguous; [done|]. apply candidates_loaded_known. }
  split.
  - intros id. case_bool_decide; [by intros [= <-]|done].
  - split; [intros Hc; rewrite Hc, size_empty in Hsize; lia|]. split; [|done].
    intros id Hc. rewrite Hc, size_singleton in Hsize. lia.
Qed.

(** * Neighbours on the loaded tables *)

Lemma neighbors_loop_total ds l acc :
  (∀ m, m ∈ l → is_Some (movies ds !! m)) → ∃ nbrs, neighbors_loop ds l acc = Ok nbrs.
Proof.
  revert acc. induction l as [|m l IH]; intros acc Hall; simpl; [by eexists|].
  destruct (Hall m) as [mv ->]; [by left|]. apply IH. intros m' Hm'. apply Hall. by right.
Qed.

Lemma loaded_costar {SL : StrLower} d p m q :
  costar (load_data d) p m q ↔
  p ∈ pr_id <$> people_csv d ∧ q ∈ pr_id <$> people_csv d ∧
  m ∈ mr_id <$> movies_csv d ∧ starred d p m ∧ starred d q m.
Proof.
  unfold costar. split.
  - intros (pr & mv & Hp & Hm & Hmv & Hq).
    apply (loaded_person_entry d p pr Hp) in Hm.
    apply (loaded_movie_entry d m mv Hmv) in Hq as [Hq Hrow].
    repeat split; try done.
    + apply loaded_table_keys. by eexists.
    + apply loaded_table_keys. by eexists.
  - intros (Hp & Hq & Hm & Hpm & Hqm).
    apply loaded_table_keys in Hp as [pr Hp]. apply loaded_table_keys in Hm as [mv Hm].
    exists pr, mv. split; [done|]. split; [by apply (loaded_person_entry d p pr Hp)|].
    split; [done|]. by apply (loaded_movie_entry d m mv Hm).
Qed.

Lemma loaded_neighbors_outcome {SL : StrLower} d p :
  match neighbors_for_person (load_data d) p with
  | Ok nbrs =>
      p ∈ pr_id <$> people_csv d ∧
      (∀ m, starred d p m → m ∈ mr_id <$> movies_csv d) ∧
      ∀ m q, (m, q) ∈ nbrs ↔
             q ∈ pr_id <$> people_csv d ∧ starred d p m ∧ starred d q m
  | Raise e =>
      e = KeyError ∧
      (p ∉ pr_id <$> people_csv d ∨
       ∃ m, starred d p m ∧ m ∉ mr_id <$> movies_csv d)
  end.
Proof.
  destruct (neighbors_for_person (load_data d) p) as [nbrs|e] eqn:Hn.
  - assert (Hp : ∃ pr, people (load_data d) !! p = Some pr).
    { unfold neighbors_for_person in Hn. destruct (people (load_data d) !! p); by eauto. }
    destruct Hp as [pr Hp].
    assert (Hmov : ∀ m, starred d p m → m ∈ mr_id <$> movies_csv d).
    { intros m Hm. apply (loaded_person_entry d p pr Hp) in Hm.
      pose proof (neighbors_for_person_self_loaded d p pr Hp) as Hself.
      rewrite Hn in Hself. specialize (Hself m Hm).
      apply (neighbors_for_person_Ok _ _ _ Hn) in Hself as (_ & mv & _ & _ & Hmv & _).
      apply loaded_table_keys. by eexists. }
    split; [apply loaded_table_keys; by eexists|]. split; [done|].
    intros m q. rewrite (neighbors_for_person_costar _ _ _ Hn), loaded_costar.
    split; [naive_solver|]. intros (Hq & Hpm & Hqm).
    repeat split; try done; [apply loaded_table_keys; by eexists|by apply Hmov].
  - unfold neighbors_for_person in Hn.
    destruct (people (load_data d) !! p) as [pr|] eqn:Hp.
    + apply neighbors_loop_Raise in Hn as (-> & m & Hm & Hnone). split; [done|].
      right. exists m. split.
      * apply (loaded_person_entry d p pr Hp). by apply elem_of_elements.
      * intros Hin. apply loaded_table_keys in Hin as [mv Hmv]. congruence.
    + injection Hn as <-. split; [done|]. left. intros Hin.
      apply loaded_table_keys in Hin as [pr Hpr]. congruence.
Qed.

(** [neighbors_for_person] on loaded tables: it returns for a person of
    people.csv all of whose stars rows name movies of movies.csv, and then
    the pairs are the (m, q) with both the person and q, a person of
    people.csv, paired with m in stars.csv.  Otherwise it raises [KeyError]:
    the person is unknown, or one of their stars rows names an unknown
    movie. *)
Theorem neighbors_for_person_loaded {SL : StrLower} d p :
  match neighbors_for_person (load_data d) p with
  | Ok nbrs =>
      p ∈ pr_id <$> people_csv d ∧
      (∀ m, starred d p m → m ∈ mr_id <$> movies_csv d) ∧
      ∀ m q, (m, q) ∈ nbrs ↔
             q ∈ pr_id <$> people_csv d ∧ starred d p m ∧ starred d q m
  | Raise e =>
      e = KeyError ∧
      (p ∉ pr_id <$> people_csv d ∨
       ∃ m, starred d p m ∧ m ∉ mr_id <$> movies_csv d)
  end.
Proof. apply loaded_neighbors_outcome. Qed.

(** Co-starring is symmetric on loaded tables: if (m, q) is a neighbour of p
    then (m, p) is a neighbour of q, provided the call for q returns. *)
Theorem neighbors_for_person_symmetric {SL : StrLower} d p q m np nq :
  neighbors_for_person (load_data d) p = Ok np →
  neighbors_for_person (load_data d) q = Ok nq →
  (m, q) ∈ np → (m, p) ∈ nq.
Proof.
  intros Hp Hq Hin.
  pose proof (loaded_neighbors_outcome d p) as Hop. rewrite Hp in Hop.
  pose proof (loaded_neighbors_outcome d q) as Hoq. rewrite Hq in Hoq.
  destruct Hop as (Hpin & _ & Hnp). destruct Hoq as (_ & _ & Hnq).
  apply Hnp in Hin as (_ & Hpm & Hqm). apply Hnq. done.
Qed.

(** * How a search ends *)

Lemma step_raises ds pol iter target c e :
  step ds pol iter target c = inr (Raise e) →
  at_ c = LoopHead ∧
  ((e = NoSolution ∧ frontier c = []) ∨
   (e = KeyError ∧ ∃ node fr, Frontier.remove pol (frontier c) = Ok (node, fr) ∧
                              neighbors_for_person ds (state node) = Raise KeyError)).
Proof.
  unfold step. destruct (at_ c) as [|node [|[m q] rest]] eqn:Hat.
  - destruct (frontier c) as [|n0 fr0] eqn:Hfr; simpl.
    { intros [= <-]. split; [done|]. by left. }
    destruct (remove_nonempty pol (n0 :: fr0) eq_refl) as (node & fr & Hrm).
    rewrite Hrm.
    destruct (neighbors_for_person ds (state node)) as [nbrs|e'] eqn:Hn; [done|].
    intros [= <-]. split; [done|]. right.
    assert (e' = KeyError) as ->.
    { unfold neighbors_for_person in Hn. destruct (people ds !! state node).
      - by apply neighbors_loop_Raise in Hn as [-> _].
      - by injection Hn as <-. }
    split; [done|]. by exists node, fr.
  - done.
  - destruct (negb _ && negb _); [|done].
    by destruct (checkForTargetPerson q target node).
Qed.

(** A call raises only [Exception("No solution")] or the [KeyError] of
    [neighbors_for_person]: [remove] is never called on an empty frontier. *)
Theorem shortest_path_exceptions pol iter ds source target fuel e :
  shortest_path_with pol iter ds source target fuel = Some (Raise e) →
  e = NoSolution ∨ e = KeyError.
Proof.
  intros Hrun.
  destruct (run_reaches ds pol iter target source fuel _ _ (reach_init _ _ _ _ _) Hrun)
    as (c & _ & Hstep).
  apply step_raises in Hstep as [_ [[-> _]|[-> _]]]; [by left|by right].
Qed.

(** Every call ends after finitely many steps, with a solution or an
    exception, for either frontier and whatever the order in which the sets
    are iterated. *)
Theorem shortest_path_terminates pol iter ds source target :
  (∀ s x, x ∈ iter s → x ∈ s) →
  ∃ fuel r, shortest_path_with pol iter ds source target fuel = Some r.
Proof. intros Hiter. by apply search_terminates. Qed.

(** The result of a call does not depend on the fuel once there is enough. *)
Lemma run_deterministic ds pol iter target fuel1 fuel2 c r1 r2 :
  run ds pol iter target fuel1 c = Some r1 →
  run ds pol iter target fuel2 c = Some r2 → r1 = r2.
Proof.
  revert fuel2 c. induction fuel1 as [|fuel1 IH]; intros [|fuel2] c; simpl; try done.
  destruct (step ds pol iter target c) as [c'|r]; [apply IH|congruence].
Qed.

(** The frontier never holds two nodes with the same state, and a node is
    dequeued only with a state that has not been explored before: nobody is
    expanded twice. *)
Theorem frontier_states_unique ds pol iter target source c :
  reachable ds pol iter target source c →
  NoDup (state <$> frontier c) ∧
  ∀ node fr,
    at_ c = LoopHead → Frontier.remove pol (frontier c) = Ok (node, fr) →
    state node ∉ exploredPeople c.
Proof.
  intros Hreach. destruct (reachable_inv _ _ _ _ _ _ Hreach) as (Hnd & Hdisj & _).
  split; [done|]. intros node fr _ Hrm%remove_Permutation.
  apply Hdisj. rewrite Hrm. by left.
Qed.

(** * The lists a solution is made of *)

Lemma walk_parents_pairs node : ∀ mvs ppl,
  walk_parents node mvs ppl =
  (mvs ++ reverse (fst <$> node_pairs node), ppl ++ reverse (snd <$> node_pairs node)).
Proof.
  induction node as [st act|st up act IH] using Node_parent_ind; intros mvs ppl; simpl.
  - by rewrite !app_nil_r.
  - rewrite IH, !fmap_app, !reverse_app. simpl. by rewrite <- !app_assoc.
Qed.

(** [checkForTargetPerson] answers [None] for an id other than the target;
    for the target it returns the actions and the states of the nodes from
    below the root down to the node it is given, in that order; the root
    contributes nothing. *)
Theorem checkForTargetPerson_pairs cur target node :
  checkForTargetPerson cur target node =
  if decide (cur = target)
  then Some (fst <$> node_pairs node, snd <$> node_pairs node)
  else None.
Proof.
  unfold checkForTargetPerson. destruct (decide (cur = target)) as [Heq|Hne].
  - rewrite bool_decide_eq_true_2 by done. rewrite walk_parents_pairs. simpl.
    by rewrite !reverse_involutive.
  - by rewrite bool_decide_eq_false_2.
Qed.

Lemma checkForTargetPerson_found target node :
  checkForTargetPerson target target node
  = Some (fst <$> node_pairs node, snd <$> node_pairs node).
Proof.
  unfold checkForTargetPerson. rewrite bool_decide_eq_true_2 by done.
  rewrite walk_parents_pairs. simpl. by rewrite !reverse_involutive.
Qed.

Section ValidNodes.

Variable ds : dataset.
Variable pol : policy.
Variable iter : gset (movie_id * person_id) → list (movie_id * person_id).
Variable target : person_id.
Variable source : person_id.

Hypothesis iter_sound : ∀ s x, x ∈ iter s → x ∈ s.

Lemma valid_node_child node m q :
  valid_node ds source node → costar ds (state node) m q →
  valid_node ds source (mkNode q (Some node) (Some m)).
Proof.
  intros (path & Hpairs & Hpath) Hco. exists (path ++ [(m, q)]). split.
  - simpl. by rewrite Hpairs, fmap_app.
  - simpl. by eapply is_path_snoc.
Qed.

Lemma reachable_valid c :
  reachable ds pol iter target source c → valid_config ds source c.
Proof.
  induction 1 as [|c c' _ [IHfr IHcur] Hstep].
  - split; [|done]. intros n ->%list_elem_of_singleton. by exists [].
  - unfold valid_config.
    destruct (step_inl _ _ _ _ _ _ Hstep)
      as [(_ & node & nbrs & Hrm & Hn & _ & ->)
         |[(node & _ & -> & -> & _)
          |(node & m & p & rest & Hat & -> & _ & Hcase)]].
    + apply remove_Permutation in Hrm. split; [|split].
      * intros n Hn'. apply IHfr. rewrite Hrm. by right.
      * apply IHfr. rewrite Hrm. by left.
      * intros m q Hin%iter_sound. by apply (neighbors_for_person_costar _ _ _ Hn).
    + done.
    + rewrite Hat in IHcur. destruct IHcur as [Hnode Hrest]. split; [|split].
      * intros n Hn. destruct Hcase as [(_ & _ & _ & Hadd)|[_ Hsame]].
        -- rewrite Hadd in Hn.
           apply elem_of_app in Hn as [Hn|Hn%list_elem_of_singleton]; [by apply IHfr|].
           subst n. apply valid_node_child; [done|]. apply Hrest. by left.
        -- rewrite Hsame in Hn. by apply IHfr.
      * done.
      * intros m' q Hin. apply Hrest. by right.
Qed.

Lemma solution_is_path fuel mvs ppl :
  shortest_path_with pol iter ds source target fuel = Some (Ok (mvs, ppl)) →
  ∃ path m,
    mvs = (λ mp, Some mp.1) <$> path ∧ ppl = snd <$> path ∧
    is_path ds source (path ++ [(m, target)]) target.
Proof.
  intros Hrun.
  destruct (run_reaches _ _ _ _ _ _ _ _ (reach_init _ _ _ _ _) Hrun)
    as (c & Hreach & Hstep).
  destruct (step_returns _ _ _ _ _ _ Hstep) as (node & m & rest & Hat & _ & _ & Hchk).
  rewrite checkForTargetPerson_found in Hchk. injection Hchk as <- <-.
  destruct (reachable_valid _ Hreach) as [_ Hcur]. rewrite Hat in Hcur.
  destruct Hcur as [(path & Hpairs & Hpath) Hrest].
  exists path, m. rewrite Hpairs, <- !list_fmap_compose. split; [done|]. split; [done|].
  eapply is_path_snoc; [done|]. apply Hrest. by left.
Qed.

End ValidNodes.

(** What a successful call returns: the movies and the people of a co-star
    path that leads from the source to a co-star of the target; with one
    more pair, for the target, the path reaches the target.  The two lists
    leave that last pair out. *)
Theorem shortest_path_solution pol iter ds source target fuel mvs ppl :
  (∀ s x, x ∈ iter s → x ∈ s) →
  shortest_path_with pol iter ds source target fuel = Some (Ok (mvs, ppl)) →
  ∃ path m,
    mvs = (λ mp, Some mp.1) <$> path ∧ ppl = snd <$> path ∧
    is_path ds source (path ++ [(m, target)]) target.
Proof. intros Hiter. by apply solution_is_path. Qed.

(** * Completeness of the search *)

Lemma contains_state_true fr st :
  Frontier.contains_state fr st = true → st ∈ state <$> fr.
Proof.
  unfold Frontier.contains_state. induction fr as [|n fr IH]; simpl; [done|].
  intros [Hn|Hfr]%orb_true_iff.
  - apply bool_decide_eq_true in Hn as <-. by left.
  - right. by apply IH.
Qed.

Section Completeness.

Variable ds : dataset.
Variable pol : policy.
Variable iter : gset (movie_id * person_id) → list (movie_id * person_id).
Variable target : person_id.
Variable source : person_id.

(** The [for] loop visits every element of the set it iterates over. *)
Hypothesis iter_complete : ∀ s x, x ∈ s → x ∈ iter s.

Local Abbreviation step1 := (step ds pol iter target).
Local Abbreviation reach := (reachable ds pol iter target).

Lemma seen_step c c' b : step1 c = inl c' → seen c b → seen c' b.
Proof.
  intros Hstep Hseen.
  destruct (step_inl _ _ _ _ _ _ Hstep)
    as [(_ & node & nbrs & Hrm & _ & Hex & _)
       |[(node & _ & _ & Hfr & Hex)
        |(node & m & p & rest & _ & _ & Hex & Hcase)]]; unfold seen; rewrite Hex.
  - apply remove_Permutation in Hrm. destruct Hseen as [?|Hin]; [left; set_solver|].
    rewrite Hrm, fmap_cons in Hin. apply elem_of_cons in Hin as [->|Hin]; [|by right].
    left. set_solver.
  - by rewrite Hfr.
  - destruct Hseen as [?|Hin]; [by left|]. right.
    destruct Hcase as [(_ & _ & _ & ->)|[_ ->]]; [|done].
    unfold Frontier.add. rewrite fmap_app. apply elem_of_app. by left.
Qed.

Lemma reachable_expansion_closed c : reach source c → expansion_closed ds source c.
Proof.
  induction 1 as [|c c' _ (IHsrc & IHdone & IHcur) Hstep].
  - split; [right; by left|]. split; [|done].
    intros a m b Ha. by apply not_elem_of_empty in Ha.
  - pose proof (seen_step _ _ _ Hstep IHsrc) as Hsrc. split; [done|].
    destruct (step_inl _ _ _ _ _ _ Hstep)
      as [(Hat & node & nbrs & Hrm & Hn & Hex & Hat')
         |[(node & Hat & Hat' & Hfr & Hex)
          |(node & m & p & rest & Hat & Hat' & Hex & Hcase)]]; rewrite Hat'.
    + split.
      * intros a m b Ha Hne Hco. apply (seen_step _ _ _ Hstep).
        rewrite Hex in Ha. apply elem_of_union in Ha as [Ha|Ha%elem_of_singleton];
          [|done].
        apply (IHdone a m b Ha); [by rewrite Hat|done].
      * intros m b Hco. right. apply iter_complete.
        by apply (neighbors_for_person_costar _ _ _ Hn).
    + split; [|done]. intros a m b Ha _ Hco. apply (seen_step _ _ _ Hstep).
      rewrite Hex in Ha. rewrite Hat in IHdone, IHcur.
      destruct (decide (a = state node)) as [->|Hne].
      * destruct (IHcur m b Hco) as [?|Hin]; [done|]. by apply elem_of_nil in Hin.
      * by apply (IHdone a m b).
    + rewrite Hat in IHdone, IHcur. split.
      * intros a m' b Ha Hne Hco. apply (seen_step _ _ _ Hstep).
        rewrite Hex in Ha. by apply (IHdone a m' b).
      * intros m' b Hco. destruct (IHcur m' b Hco) as [Hseen|Hin].
        { left. by apply (seen_step _ _ _ Hstep). }
        apply elem_of_cons in Hin as [[= -> ->]|Hin]; [|by right].
        left. unfold seen. rewrite Hex.
        destruct Hcase as [(_ & _ & _ & ->)|[[Hcs|Hpe] ->]].
        -- right. unfold Frontier.add. rewrite fmap_app. apply elem_of_app. right.
           by left.
        -- right. by apply contains_state_true.
        -- by left.
Qed.

Lemma target_never_explored c :
  source ≠ target → reach source c → target ∉ exploredPeople c.
Proof.
  intros Hne. induction 1 as [|c c' Hreach IH Hstep]; [apply not_elem_of_empty|].
  destruct (step_inl _ _ _ _ _ _ Hstep)
    as [(_ & node & nbrs & Hrm & _ & -> & _)
       |[(node & _ & _ & _ & ->)|(node & m & p & rest & _ & _ & -> & _)]];
    [|done..].
  apply remove_Permutation in Hrm.
  intros [?|Hin%elem_of_singleton]%elem_of_union; [done|].
  assert (Hnode : node ∈ frontier c) by (rewrite Hrm; by left).
  pose proof (frontier_target_root _ _ _ _ _ _ Hreach node Hnode (eq_sym Hin)) as ->.
  simpl in Hin. congruence.
Qed.

Lemma explored_closed_path c path : ∀ a,
  at_ c = LoopHead → frontier c = [] → expansion_closed ds source c →
  a ∈ exploredPeople c → is_path ds a path target → target ∈ exploredPeople c.
Proof.
  induction path as [|[m q] path IH]; intros a Hat Hfr Hcl Ha; simpl.
  - by intros <-.
  - intros [Hco Hpath]. apply (IH q); try done.
    destruct Hcl as (_ & Hdone & _). rewrite Hat in Hdone.
    destruct (Hdone a m q Ha I Hco) as [?|Hin]; [done|].
    rewrite Hfr in Hin. by apply elem_of_nil in Hin.
Qed.

(** Between distinct people that a co-star path connects, the frontier does
    not run empty. *)
Lemma connected_search_not_exhausted path fuel :
  source ≠ target → is_path ds source path target →
  shortest_path_with pol iter ds source target fuel ≠ Some (Raise NoSolution).
Proof.
  intros Hne Hpath Hrun.
  destruct (run_reaches _ _ _ _ _ _ _ _ (reach_init _ _ _ _ _) Hrun)
    as (c & Hreach & Hstep).
  apply step_raises in Hstep as [Hat [[_ Hfr]|[[=] _]]].
  pose proof (reachable_expansion_closed _ Hreach) as Hcl.
  apply (target_never_explored c Hne Hreach).
  apply (explored_closed_path c path source Hat Hfr Hcl); [|done].
  destruct Hcl as ([?|Hin] & _); [done|].
  rewrite Hfr in Hin. by apply elem_of_nil in Hin.
Qed.

End Completeness.

(** Completeness: between distinct people that a co-star path connects, a
    call ends with a solution, unless [neighbors_for_person] raises
    [KeyError] on the way; it never ends with "No solution". *)
Theorem shortest_path_complete pol iter ds source target path :
  (∀ s x, x ∈ iter s ↔ x ∈ s) →
  source ≠ target → is_path ds source path target →
  ∃ fuel r,
    shortest_path_with pol iter ds source target fuel = Some r ∧
    ((∃ sol, r = Ok sol) ∨ r = Raise KeyError).
Proof.
  intros Hiter Hne Hpath.
  destruct (search_terminates ds pol iter target source) as (fuel & r & Hrun).
  { intros s x. apply Hiter. }
  exists fuel, r. split; [done|]. destruct r as [sol|e]; [left; by exists sol|right].
  destruct (run_reaches ds pol iter target source fuel _ _ (reach_init _ _ _ _ _) Hrun)
    as (c & _ & Hstep).
  apply step_raises in Hstep as [_ [[-> _]|[-> _]]]; [|done].
  exfalso. eapply connected_search_not_exhausted; [|done..]. intros s x. apply Hiter.
Qed.

Lemma iter_elements (s : gset (string * string)) x : x ∈ elements s ↔ x ∈ s.
Proof. apply elem_of_elements. Qed.

(** Between people that no co-star path connects, a call never returns: it
    ends by raising "No solution", or [KeyError] if [neighbors_for_person]
    fails on the way. *)
Theorem shortest_path_disconnected pol iter ds source target :
  (∀ s x, x ∈ iter s → x ∈ s) →
  (∀ path, ¬ is_path ds source path target) →
  ∃ fuel e,
    shortest_path_with pol iter ds source target fuel = Some (Raise e) ∧
    (e = NoSolution ∨ e = KeyError).
Proof.
  intros Hiter Hnone.
  destruct (disconnected_search_raises ds pol iter target source Hiter Hnone)
    as (fuel & e & Hrun).
  exists fuel, e. split; [done|].
  destruct (run_reaches ds pol iter target source fuel _ _ (reach_init _ _ _ _ _) Hrun)
    as (c & _ & Hstep).
  apply step_raises in Hstep as [_ [[-> _]|[-> _]]]; [by left|by right].
Qed.


(** * Searching loaded tables without unknown movies *)

Lemma reachable_closed ds pol iter target source c :
  (∀ s x, x ∈ iter s → x ∈ s) →
  reachable ds pol iter target source c → closed ds source c.
Proof.
  intros Hiter. induction 1 as [|c c' _ IH Hstep];
    [apply (closed_init ds iter source Hiter)|].
  by eapply closed_step.
Qed.

Lemma clean_neighbors_return {SL : StrLower} d source q :
  clean_stars d → source ∈ pr_id <$> people_csv d →
  q ∈ universe (load_data d) source →
  ∃ nbrs, neighbors_for_person (load_data d) q = Ok nbrs.
Proof.
  intros Hclean Hsrc Hq.
  assert (Hknown : q ∈ pr_id <$> people_csv d).
  { unfold universe in Hq. apply elem_of_union in Hq as [->%elem_of_singleton|Hq];
      [done|].
    apply elem_of_all_stars in Hq as (m & mv & Hm & Hin).
    apply loaded_table_keys. by eapply load_data_stars_known. }
  pose proof (loaded_neighbors_outcome d q) as Hout.
  destruct (neighbors_for_person (load_data d) q) as [nbrs|e]; [by exists nbrs|].
  destruct Hout as [_ [Hnot|(m & (srow & Hrow & _ & <-) & Hnot)]]; [done|].
  destruct Hnot. by apply Hclean.
Qed.

Lemma clean_search_result {SL : StrLower} pol iter d source target :
  (∀ s x, x ∈ iter s ↔ x ∈ s) →
  clean_stars d → source ∈ pr_id <$> people_csv d → source ≠ target →
  ∃ fuel r,
    shortest_path_with pol iter (load_data d) source target fuel = Some r ∧
    (((∃ sol, r = Ok sol) ∧ ∃ path, is_path (load_data d) source path target)
     ∨ (r = Raise NoSolution ∧ ∀ path, ¬ is_path (load_data d) source path target)).
Proof.
  intros Hiter Hclean Hsrc Hne.
  assert (Hsound : ∀ s x, x ∈ iter s → x ∈ s) by (intros s x; apply Hiter).
  assert (Hcomplete : ∀ s x, x ∈ s → x ∈ iter s) by (intros s x; apply Hiter).
  destruct (search_terminates (load_data d) pol iter target source Hsound)
    as (fuel & r & Hrun).
  exists fuel, r. split; [done|]. destruct r as [sol|e].
  - left. split; [by exists sol|].
    by eapply (solution_needs_path (load_data d) pol iter target source Hsound).
  - right.
    destruct (run_reaches _ pol iter target source fuel _ _ (reach_init _ _ _ _ _) Hrun)
      as (c & Hreach & Hstep).
    apply step_raises in Hstep as [_ [[-> _]|[-> (node & fr & Hrm & Hraise)]]].
    + split; [done|]. intros path Hpath.
      by eapply (connected_search_not_exhausted (load_data d) pol iter target source
                   Hcomplete path fuel).
    + exfalso. apply remove_Permutation in Hrm.
      destruct (reachable_closed _ _ _ _ _ _ Hsound Hreach) as [Hfr _].
      destruct (clean_neighbors_return d source (state node) Hclean Hsrc) as [nbrs Hn].
      { apply Hfr. rewrite Hrm. by left. }
      congruence.
Qed.

(** On tables loaded from a directory whose stars rows all name known
    movies, a search from a known person for somebody else ends with a
    solution when a co-star path connects the two, and with "No solution"
    when none does. *)
Theorem clean_search_outcome {SL : StrLower} pol iter d source target :
  (∀ s x, x ∈ iter s ↔ x ∈ s) →
  clean_stars d → source ∈ pr_id <$> people_csv d → source ≠ target →
  ∃ fuel r,
    shortest_path_with pol iter (load_data d) source target fuel = Some r ∧
    (((∃ sol, r = Ok sol) ∧ ∃ path, is_path (load_data d) source path target)
     ∨ (r = Raise NoSolution ∧ ∀ path, ¬ is_path (load_data d) source path target)).
Proof. apply clean_search_result. Qed.

(** * The console program *)

Lemma person_id_for_name_io_none {SL : StrLower} ds name w :
  candidates ds name = ∅ → person_id_for_name_io ds name w = Some (inl None, w).
Proof. unfold person_id_for_name_io. intros ->. by rewrite elements_empty. Qed.

Lemma person_id_for_name_io_unique {SL : StrLower} ds name id w :
  candidates ds name = {[id]} →
  person_id_for_name_io ds name w = Some (inl (Some id), w).
Proof. unfold person_id_for_name_io. intros ->. by rewrite elements_singleton. Qed.

(** What [main] does once both names resolve without a prompt. *)
Lemma main_resolved {SL : StrLower} fs iter fuel argv d name1 name2 rest out
    source target :
  (length argv ≤ 2)%nat → fs (directory_arg argv) = Some d →
  candidates (load_data d) name1 = {[source]} →
  candidates (load_data d) name2 = {[target]} →
  main fs iter fuel argv (mkWorld (name1 :: name2 :: rest) out) =
  match shortest_path iter (load_data d) source target fuel with
  | None => None
  | Some (Ok path) =>
      Some (inr TypeError,
            mkWorld rest
              (out ++ ["Loading data..." +:+ newline; "Data loaded." +:+ newline;
                       "Name: "; "Name: ";
                       "2 degrees of separation." +:+ newline]))
  | Some (Raise e) =>
      Some (inr (Uncaught e),
            mkWorld rest
              (out ++ ["Loading data..." +:+ newline; "Data loaded." +:+ newline;
                       "Name: "; "Name: "]))
  end.
Proof.
  intros Hlen Hfs Hc1 Hc2. unfold main.
  rewrite bool_decide_eq_false_2 by lia.
  unfold mbind, io_bind, print, input; simpl. rewrite Hfs. simpl.
  rewrite (person_id_for_name_io_unique _ _ source _ Hc1). simpl.
  rewrite (person_id_for_name_io_unique _ _ target _ Hc2).
  unfold call_shortest_path.
  destruct (shortest_path iter (load_data d) source target fuel) as [[path|e]|];
    [| |done].
  - unfold stop. simpl. by rewrite <- !app_assoc.
  - by rewrite <- !app_assoc.
Qed.

(** [main] never returns normally and, with more than one argument, exits
    with the usage message before it prints, loads or reads anything. *)
Theorem main_never_returns {SL : StrLower} fs iter fuel argv w :
  (∀ r w', main fs iter fuel argv w = Some (r, w') → ∃ h, r = inr h) ∧
  ((2 < length argv)%nat →
   main fs iter fuel argv w
   = Some (inr (SystemExit "Usage: python degrees.py [directory]"), w)).
Proof.
  split.
  - unfold main. intros r w'. case_bool_decide; [intros [= <- <-]; by eexists|].
    unfold mbind, io_bind, print, input, stop, call_shortest_path; simpl.
    repeat (case_match; simplify_eq/=; try by eauto).
    all: intros; simplify_eq/=; by eauto.
  - intros Hlen. unfold main. by rewrite bool_decide_eq_true_2.
Qed.

(** A first name that no people.csv row has, up to [str.lower], ends the
    program with "Person not found." right after the first prompt: the
    second name is not read. *)
Theorem main_person_not_found {SL : StrLower} fs iter fuel argv d name1 rest out :
  (length argv ≤ 2)%nat → fs (directory_arg argv) = Some d →
  (∀ row, row ∈ people_csv d → lower (pr_name row) ≠ lower name1) →
  main fs iter fuel argv (mkWorld (name1 :: rest) out) =
  Some (inr (SystemExit "Person not found."),
        mkWorld rest
          (out ++ ["Loading data..." +:+ newline; "Data loaded." +:+ newline;
                   "Name: "])).
Proof.
  intros Hlen Hfs Hnone. unfold main.
  rewrite bool_decide_eq_false_2 by lia.
  unfold mbind, io_bind, print, input; simpl. rewrite Hfs. simpl.
  rewrite person_id_for_name_io_none.
  - unfold stop. by rewrite <- !app_assoc.
  - apply leibniz_equiv. intros id. split; [|set_solver].
    intros (row & Hrow & _ & Hname)%loaded_name_index. by destruct (Hnone row Hrow).
Qed.

(** End to end, on a directory whose stars rows all name known movies: when
    the two names entered each have exactly one candidate and these differ,
    the program prints "2 degrees of separation." and stops with [TypeError]
    if a co-star path connects the two, whatever its length; if none does, it
    stops with the uncaught "No solution" exception.  It prints "Not
    connected." in neither case. *)
Theorem main_end_to_end {SL : StrLower} fs argv d name1 name2 rest out source target :
  (length argv ≤ 2)%nat → fs (directory_arg argv) = Some d → clean_stars d →
  candidates (load_data d) name1 = {[source]} →
  candidates (load_data d) name2 = {[target]} →
  source ≠ target →
  ∃ fuel,
    ((∃ path, is_path (load_data d) source path target) ∧
     main fs elements fuel argv (mkWorld (name1 :: name2 :: rest) out) =
     Some (inr TypeError,
           mkWorld rest
             (out ++ ["Loading data..." +:+ newline; "Data loaded." +:+ newline;
                      "Name: "; "Name: ";
                      "2 degrees of separation." +:+ newline])))
    ∨ ((∀ path, ¬ is_path (load_data d) source path target) ∧
       main fs elements fuel argv (mkWorld (name1 :: name2 :: rest) out) =
       Some (inr (Uncaught NoSolution),
             mkWorld rest
               (out ++ ["Loading data..." +:+ newline; "Data loaded." +:+ newline;
                        "Name: "; "Name: "]))).
Proof.
  intros Hlen Hfs Hclean Hc1 Hc2 Hne.
  assert (Hsrc : source ∈ pr_id <$> people_csv d).
  { assert (Hin : source ∈ candidates (load_data d) name1) by (rewrite Hc1; set_solver).
    apply loaded_name_index in Hin as (row & Hrow & <- & _).
    apply list_elem_of_fmap. by exists row. }
  destruct (clean_search_result StackFrontier elements d source target
              (λ s x, elem_of_elements s x) Hclean Hsrc Hne)
    as (fuel & r & Hrun & Hcase).
  exists fuel. rewrite (main_resolved _ _ _ _ d _ _ _ _ source target Hlen Hfs Hc1 Hc2).
  unfold shortest_path. rewrite Hrun.
  destruct Hcase as [[[sol ->] Hpath]|[-> Hnone]]; [by left|by right].
Qed.

(** * The fixtures *)

(** The fixtures have ASCII names, for which [str.lower] is [ascii_lower]. *)
#[local] Existing Instance ascii_str_lower.

Example resolve_unique : person_id_for_name names_ds "kevin BACON" "" = Ok (Some "102").
Proof. vm_compute. reflexivity. Qed.

Example resolve_ambiguous_chosen :
  person_id_for_name names_ds "tom hanks" "9158" = Ok (Some "9158").
Proof. vm_compute. reflexivity. Qed.

Example resolve_ambiguous_rejected :
  person_id_for_name names_ds "tom hanks" "102" = Ok None.
Proof. vm_compute. reflexivity. Qed.

Example resolve_unknown : person_id_for_name names_ds "Emma Watson" "" = Ok None.
Proof. vm_compute. reflexivity. Qed.


(** C7: a stars record whose movie id is absent from the movies table is not
    skipped without a trace.  On [dangling_dir] the person's movie set
    receives the unknown movie id before the record is dropped, so the
    people table differs from the one loaded without the record, and
    [neighbors_for_person] later fails on that person. *)
Theorem load_data_dangling_star :
  people (load_data dangling_dir) !! "A" = Some (mkPerson "A" "1900" {["M9"]}) ∧
  movies (load_data dangling_dir) !! "M9" = None ∧
  people (load_data dangling_dir)
    ≠ people (load_data (mkDirectory (people_csv dangling_dir)
                                      (movies_csv dangling_dir) [])) ∧
  neighbors_for_person (load_data dangling_dir) "A" = Raise KeyError.
Proof.
  split; [by vm_compute|]. split; [by vm_compute|]. split; [|by vm_compute].
  intros Heq. apply (f_equal (λ tbl, p_movies <$> tbl !! "A")) in Heq.
  vm_compute in Heq. discriminate Heq.
Qed.

(* the search from A for C on the chain fixture, once the root is expanded:
   B waits in the frontier and A is explored *)
Lemma explored_frontier_disjoint_witness :
  let c := mkConfig [mkNode "B" (Some (root "A")) (Some "M1")] {["A"]} LoopHead in
  reachable chain_ds StackFrontier elements "C" "A" c ∧
  ∀ n, n ∈ frontier c → state n ∉ exploredPeople c.
Proof.
  intros c.
  assert (Hreach : reachable chain_ds StackFrontier elements "C" "A" c).
  { eapply reach_step;
      [eapply reach_step;
         [eapply reach_step;
            [eapply reach_step; [apply reach_init|vm_compute; reflexivity]
            |vm_compute; reflexivity]
         |vm_compute; reflexivity]
      |vm_compute; reflexivity]. }
  split; [exact Hreach|].
  exact (proj1 (explored_frontier_disjoint chain_ds StackFrontier elements "C" "A"
                  c Hreach)).
Defined.

(** A search from A to A starts with the root, whose state is the target, in
    the frontier. *)
Lemma target_in_frontier_of_self_search :
  ¬ target_never_in_frontier chain_ds StackFrontier elements "A" "A".
Proof.
  intros Hnever.
  apply (Hnever (init "A") (reach_init _ _ _ _ _) (root "A")); [|reflexivity].
  apply list_elem_of_singleton. reflexivity.
Qed.

Lemma target_only_as_root_witness :
  "A" ≠ "B" ∧
  neighbors_for_person chain_ds "A" = Ok {[("M1", "A"); ("M1", "B")]} ∧
  ("M1", "B") ∈ elements ({[("M1", "A"); ("M1", "B")]} : gset (string * string)) ∧
  ∃ sol, run chain_ds StackFrontier elements "B" 3 (init "A") = Some (Ok sol).
Proof.
  assert (Hne : "A" ≠ "B") by discriminate.
  assert (Hn : neighbors_for_person chain_ds "A" = Ok {[("M1", "A"); ("M1", "B")]})
    by (vm_compute; reflexivity).
  assert (Hin : ("M1", "B")
                ∈ elements ({[("M1", "A"); ("M1", "B")]} : gset (string * string))).
  { apply elem_of_elements, elem_of_union_r, elem_of_singleton. reflexivity. }
  split; [exact Hne|]. split; [exact Hn|]. split; [exact Hin|].
  destruct (target_only_as_root chain_ds StackFrontier elements "B" "A")
    as (_ & _ & _ & Hdirect).
  destruct (Hdirect _ "M1" Hne Hn Hin) as [Hrun _]. exact Hrun.
Defined.

Example self_search_chain :
  shortest_path elements chain_ds "A" "A" 20 = Some (Raise NoSolution).
Proof. vm_compute. reflexivity. Qed.

Lemma chain_people_A : people chain_ds !! "A" = Some (mkPerson "A" "1900" {["M1"]}).
Proof. vm_compute. reflexivity. Qed.

Lemma chain_people_B :
  people chain_ds !! "B" = Some (mkPerson "B" "1900" {["M1"; "M2"]}).
Proof. vm_compute. reflexivity. Qed.

Lemma chain_movies_M1 :
  movies chain_ds !! "M1" = Some (mkMovie "M1" "2000" {["A"; "B"]}).
Proof. vm_compute. reflexivity. Qed.

Lemma chain_movies_M2 :
  movies chain_ds !! "M2" = Some (mkMovie "M2" "2001" {["B"; "C"]}).
Proof. vm_compute. reflexivity. Qed.

Lemma isolated_people_A :
  people isolated_ds !! "A" = Some (mkPerson "A" "1900" {["M1"]}).
Proof. vm_compute. reflexivity. Qed.

Lemma isolated_people_C :
  people isolated_ds !! "C" = Some (mkPerson "C" "1900" {["M1"]}).
Proof. vm_compute. reflexivity. Qed.

Lemma isolated_movies_M1 :
  movies isolated_ds !! "M1" = Some (mkMovie "M1" "2000" {["A"; "C"]}).
Proof. vm_compute. reflexivity. Qed.

Lemma chain_costar_A m q : costar chain_ds "A" m q → m = "M1" ∧ (q = "A" ∨ q = "B").
Proof.
  intros (pa & mv & Hp & Hm & Hmv & Hq).
  rewrite chain_people_A in Hp. injection Hp as <-. simpl in Hm.
  apply elem_of_singleton in Hm as ->.
  rewrite chain_movies_M1 in Hmv. injection Hmv as <-. simpl in Hq.
  split; [done|]. set_solver.
Qed.

Lemma chain_path_A_C : is_path chain_ds "A" [("M1", "B"); ("M2", "C")] "C".
Proof.
  simpl. split; [|split; [|done]].
  - eexists _, _. split; [apply chain_people_A|]. split; [set_solver|].
    split; [apply chain_movies_M1|]. set_solver.
  - eexists _, _. split; [apply chain_people_B|]. split; [set_solver|].
    split; [apply chain_movies_M2|]. set_solver.
Qed.

Lemma chain_distance_A_C : graph_distance chain_ds "A" "C" 2.
Proof.
  split; [exists [("M1", "B"); ("M2", "C")]; split; [done|apply chain_path_A_C]|].
  intros [|[m q] [|[m' q'] path]]; simpl; [done| |lia].
  intros [Hco ->]. by apply chain_costar_A in Hco as [_ [?|?]].
Qed.

Lemma isolated_costar a m q :
  a = "A" ∨ a = "C" → costar isolated_ds a m q → q = "A" ∨ q = "C".
Proof.
  intros Ha (pa & mv & Hp & Hm & Hmv & Hq).
  assert (Hm1 : m = "M1").
  { destruct Ha as [-> | ->].
    - rewrite isolated_people_A in Hp. injection Hp as <-. set_solver.
    - rewrite isolated_people_C in Hp. injection Hp as <-. set_solver. }
  subst m. rewrite isolated_movies_M1 in Hmv. injection Hmv as <-. set_solver.
Qed.

Lemma isolated_no_path path : ∀ a,
  a = "A" ∨ a = "C" → ¬ is_path isolated_ds a path "B".
Proof.
  induction path as [|[m q] path IH]; intros a Ha; simpl.
  - destruct Ha as [-> | ->]; discriminate.
  - intros [Hco Hpath]. eapply IH; [|done]. by eapply isolated_costar.
Qed.

(** C1: the frontier runs empty on a search between disconnected people and
    the call raises [Exception("No solution")]; no value is returned.  On
    [isolated_ds] nothing leads from A to B, and both frontier disciplines
    end in the exception. *)
Theorem exhausted_frontier_raises :
  (∀ path, ¬ is_path isolated_ds "A" path "B") ∧
  shortest_path elements isolated_ds "A" "B" 20 = Some (Raise NoSolution) ∧
  shortest_path_with QueueFrontier elements isolated_ds "A" "B" 20
    = Some (Raise NoSolution).
Proof.
  split; [intros path; apply isolated_no_path; by left|].
  split; vm_compute; reflexivity.
Qed.

(** C2: the reconstruction starts at the node being expanded, not at a node
    for the target, and returns two lists.  For the co-stars A and B of M1
    the result is a pair of empty lists, with no pair whose person is B. *)
Theorem direct_costar_empty_solution :
  costar chain_ds "A" "M1" "B" ∧
  shortest_path elements chain_ds "A" "B" 20 = Some (Ok ([], [])) ∧
  shortest_path_with QueueFrontier elements chain_ds "A" "B" 20 = Some (Ok ([], [])).
Proof.
  split; [apply chain_path_A_C|]. split; vm_compute; reflexivity.
Qed.

(** C3: with a first-in-first-out frontier the result for A and C on the
    chain fixture has length 1, while the distance from A to C is 2. *)
Theorem queue_result_shorter_than_distance :
  graph_distance chain_ds "A" "C" 2 ∧
  ∃ mvs ppl,
    shortest_path_with QueueFrontier elements chain_ds "A" "C" 20
      = Some (Ok (mvs, ppl)) ∧
    length mvs = 1%nat ∧ length ppl = 1%nat.
Proof.
  split; [apply chain_distance_A_C|].
  exists [Some "M1"], ["B"]. split; [vm_compute; reflexivity|done].
Qed.

(** C4: on the fixture of three people and two movies the search from A to C
    returns the lists [M1] and [B], under either frontier discipline; the
    pair (M2, C) is not part of the result. *)
Theorem chain_fixture_result :
  shortest_path_with QueueFrontier elements chain_ds "A" "C" 20
    = Some (Ok ([Some "M1"], ["B"])) ∧
  shortest_path elements chain_ds "A" "C" 20 = Some (Ok ([Some "M1"], ["B"])) ∧
  zip [Some "M1"] ["B"] ≠ [(Some "M1", "B"); (Some "M2", "C")].
Proof.
  split; [vm_compute; reflexivity|]. split; [vm_compute; reflexivity|]. discriminate.
Qed.

(** C10: a person of the people table is not always listed among their own
    co-stars.  On [half_dangling_dir] A has the movie M1 of the movies table
    in their movie set, next to the unknown M9; [neighbors_for_person] raises
    [KeyError] for A and computes no neighbour set, so the pair (M1, A) is in
    none, while for B it returns the pairs of M1. *)
Theorem self_pair_lost_with_dangling_movie :
  people (load_data half_dangling_dir) !! "A"
    = Some (mkPerson "A" "1900" {["M1"; "M9"]}) ∧
  is_Some (movies (load_data half_dangling_dir) !! "M1") ∧
  neighbors_for_person (load_data half_dangling_dir) "A" = Raise KeyError ∧
  neighbors_for_person (load_data half_dangling_dir) "B"
    = Ok {[("M1", "A"); ("M1", "B")]}.
Proof.
  split; [vm_compute; reflexivity|]. split; [vm_compute; by eexists|].
  split; vm_compute; reflexivity.
Qed.

Lemma self_pair_when_returned_witness :
  people (load_data chain_dir) !! "B" = Some (mkPerson "B" "1900" {["M1"; "M2"]}) ∧
  neighbors_for_person (load_data chain_dir) "B"
    = Ok {[("M1", "A"); ("M1", "B"); ("M2", "B"); ("M2", "C")]} ∧
  ∀ m, m ∈ ({["M1"; "M2"]} : gset string) →
       (m, "B") ∈ ({[("M1", "A"); ("M1", "B"); ("M2", "B"); ("M2", "C")]}
                   : gset (string * string)).
Proof.
  assert (Hp : people (load_data chain_dir) !! "B"
               = Some (mkPerson "B" "1900" {["M1"; "M2"]})) by (vm_compute; reflexivity).
  assert (Hn : neighbors_for_person (load_data chain_dir) "B"
               = Ok {[("M1", "A"); ("M1", "B"); ("M2", "B"); ("M2", "C")]})
    by (vm_compute; reflexivity).
  split; [exact Hp|]. split; [exact Hn|].
  pose proof (proj1 self_pair_when_returned chain_dir "B" _ Hp) as Hself.
  rewrite Hn in Hself. exact Hself.
Defined.

Lemma self_search_not_special_cased_witness :
  (∀ (s : gset (string * string)) x, x ∈ elements s → x ∈ s) ∧
  ∃ fuel e, shortest_path_with StackFrontier elements chain_ds "A" "A" fuel
            = Some (Raise e).
Proof.
  assert (Hiter : ∀ (s : gset (string * string)) x, x ∈ elements s → x ∈ s).
  { intros s x Hx. apply elem_of_elements. exact Hx. }
  split; [exact Hiter|].
  exact (proj2 (self_search_not_special_cased chain_ds StackFrontier elements "A" Hiter)).
Defined.

Lemma load_data_person_entry_witness :
  people (load_data dangling_dir) !! "A" = Some (mkPerson "A" "1900" {["M9"]}) ∧
  ∀ m, m ∈ ({["M9"]} : gset string) ↔
       ∃ srow, srow ∈ stars_csv dangling_dir ∧
               sr_person_id srow = "A" ∧ sr_movie_id srow = m.
Proof.
  assert (Hp : people (load_data dangling_dir) !! "A"
               = Some (mkPerson "A" "1900" {["M9"]})) by (vm_compute; reflexivity).
  split; [exact Hp|].
  exact (proj2 (load_data_person_entry dangling_dir "A" _ Hp)).
Defined.

Lemma load_data_movie_entry_witness :
  movies (load_data chain_dir) !! "M2" = Some (mkMovie "M2" "2001" {["B"; "C"]}) ∧
  ∃ row, row ∈ movies_csv chain_dir ∧ mr_id row = "M2" ∧
         "M2" = mr_title row ∧ "2001" = mr_year row.
Proof.
  assert (Hm : movies (load_data chain_dir) !! "M2"
               = Some (mkMovie "M2" "2001" {["B"; "C"]})) by (vm_compute; reflexivity).
  split; [exact Hm|].
  exact (proj1 (load_data_movie_entry chain_dir "M2" _ Hm)).
Defined.

Lemma load_data_stars_agree_witness :
  movies (load_data chain_dir) !! "M1" = Some (mkMovie "M1" "2000" {["A"; "B"]}) ∧
  ("B" ∈ ({["A"; "B"]} : gset string) ↔
   ∃ pr, people (load_data chain_dir) !! "B" = Some pr ∧ "M1" ∈ p_movies pr).
Proof.
  assert (Hm : movies (load_data chain_dir) !! "M1"
               = Some (mkMovie "M1" "2000" {["A"; "B"]})) by (vm_compute; reflexivity).
  split; [exact Hm|].
  exact (load_data_stars_agree chain_dir "M1" _ "B" Hm).
Defined.

Lemma neighbors_for_person_symmetric_witness :
  neighbors_for_person (load_data chain_dir) "A" = Ok {[("M1", "A"); ("M1", "B")]} ∧
  neighbors_for_person (load_data chain_dir) "B"
    = Ok {[("M1", "A"); ("M1", "B"); ("M2", "B"); ("M2", "C")]} ∧
  ("M1", "A") ∈ ({[("M1", "A"); ("M1", "B"); ("M2", "B"); ("M2", "C")]}
                 : gset (string * string)).
Proof.
  assert (Ha : neighbors_for_person (load_data chain_dir) "A"
               = Ok {[("M1", "A"); ("M1", "B")]}) by (vm_compute; reflexivity).
  assert (Hb : neighbors_for_person (load_data chain_dir) "B"
               = Ok {[("M1", "A"); ("M1", "B"); ("M2", "B"); ("M2", "C")]})
    by (vm_compute; reflexivity).
  split; [exact Ha|]. split; [exact Hb|].
  apply (neighbors_for_person_symmetric chain_dir "A" "B" "M1" _ _ Ha Hb).
  apply elem_of_union_r, elem_of_singleton. reflexivity.
Defined.

Lemma shortest_path_exceptions_witness :
  shortest_path_with StackFrontier elements isolated_ds "A" "B" 20
    = Some (Raise NoSolution) ∧
  (NoSolution = NoSolution ∨ NoSolution = KeyError).
Proof.
  assert (Hrun : shortest_path_with StackFrontier elements isolated_ds "A" "B" 20
                 = Some (Raise NoSolution)) by (vm_compute; reflexivity).
  split; [exact Hrun|].
  exact (shortest_path_exceptions StackFrontier elements isolated_ds "A" "B" 20 _ Hrun).
Defined.

Lemma shortest_path_terminates_witness :
  (∀ (s : gset (string * string)) x, x ∈ elements s → x ∈ s) ∧
  ∃ fuel r, shortest_path_with QueueFrontier elements chain_ds "C" "A" fuel = Some r.
Proof.
  assert (Hiter : ∀ (s : gset (string * string)) x, x ∈ elements s → x ∈ s).
  { intros s x Hx. apply elem_of_elements. exact Hx. }
  split; [exact Hiter|].
  exact (shortest_path_terminates QueueFrontier elements chain_ds "C" "A" Hiter).
Defined.

(* the search from A for C on the chain fixture, with B waiting in the
   frontier *)
Lemma frontier_states_unique_witness :
  let c := mkConfig [mkNode "B" (Some (root "A")) (Some "M1")] {["A"]} LoopHead in
  reachable chain_ds StackFrontier elements "C" "A" c ∧
  NoDup (state <$> frontier c) ∧
  ∀ node fr,
    at_ c = LoopHead → Frontier.remove StackFrontier (frontier c) = Ok (node, fr) →
    state node ∉ exploredPeople c.
Proof.
  intros c.
  assert (Hreach : reachable chain_ds StackFrontier elements "C" "A" c).
  { eapply reach_step;
      [eapply reach_step;
         [eapply reach_step;
            [eapply reach_step; [apply reach_init|vm_compute; reflexivity]
            |vm_compute; reflexivity]
         |vm_compute; reflexivity]
      |vm_compute; reflexivity]. }
  split; [exact Hreach|].
  exact (frontier_states_unique chain_ds StackFrontier elements "C" "A" c Hreach).
Defined.

Lemma shortest_path_solution_witness :
  (∀ (s : gset (string * string)) x, x ∈ elements s → x ∈ s) ∧
  shortest_path_with StackFrontier elements chain_ds "A" "C" 20
    = Some (Ok ([Some "M1"], ["B"])) ∧
  ∃ path m,
    [Some "M1"] = (λ mp : string * string, Some mp.1) <$> path ∧
    ["B"] = snd <$> path ∧
    is_path chain_ds "A" (path ++ [(m, "C")]) "C".
Proof.
  assert (Hiter : ∀ (s : gset (string * string)) x, x ∈ elements s → x ∈ s).
  { intros s x Hx. apply elem_of_elements. exact Hx. }
  assert (Hrun : shortest_path_with StackFrontier elements chain_ds "A" "C" 20
                 = Some (Ok ([Some "M1"], ["B"]))) by (vm_compute; reflexivity).
  split; [exact Hiter|]. split; [exact Hrun|].
  exact (shortest_path_solution StackFrontier elements chain_ds "A" "C" 20 _ _
           Hiter Hrun).
Defined.

Lemma shortest_path_complete_witness :
  "A" ≠ "C" ∧ is_path chain_ds "A" [("M1", "B"); ("M2", "C")] "C" ∧
  ∃ fuel r,
    shortest_path_with StackFrontier elements chain_ds "A" "C" fuel = Some r ∧
    ((∃ sol, r = Ok sol) ∨ r = Raise KeyError).
Proof.
  assert (Hne : "A" ≠ "C") by discriminate.
  split; [exact Hne|]. split; [exact chain_path_A_C|].
  exact (shortest_path_complete StackFrontier elements chain_ds "A" "C" _
           iter_elements Hne chain_path_A_C).
Defined.

Lemma shortest_path_disconnected_witness :
  (∀ (s : gset (string * string)) x, x ∈ elements s → x ∈ s) ∧
  (∀ path, ¬ is_path isolated_ds "A" path "B") ∧
  ∃ fuel e,
    shortest_path_with StackFrontier elements isolated_ds "A" "B" fuel
      = Some (Raise e) ∧
    (e = NoSolution ∨ e = KeyError).
Proof.
  assert (Hiter : ∀ (s : gset (string * string)) x, x ∈ elements s → x ∈ s).
  { intros s x Hx. apply elem_of_elements. exact Hx. }
  assert (Hnone : ∀ path, ¬ is_path isolated_ds "A" path "B").
  { intros path. apply isolated_no_path. left. reflexivity. }
  split; [exact Hiter|]. split; [exact Hnone|].
  exact (shortest_path_disconnected StackFrontier elements isolated_ds "A" "B"
           Hiter Hnone).
Defined.

Lemma clean_search_outcome_witness :
  clean_stars chain_dir ∧ "A" ∈ pr_id <$> people_csv chain_dir ∧ "A" ≠ "C" ∧
  ∃ fuel r,
    shortest_path_with StackFrontier elements (load_data chain_dir) "A" "C" fuel
      = Some r ∧
    (((∃ sol, r = Ok sol) ∧ ∃ path, is_path (load_data chain_dir) "A" path "C")
     ∨ (r = Raise NoSolution ∧ ∀ path, ¬ is_path (load_data chain_dir) "A" path "C")).
Proof.
  assert (Hclean : clean_stars chain_dir).
  { intros srow Hin. simpl in Hin.
    repeat (apply elem_of_cons in Hin as [->|Hin]; [simpl; set_solver|]).
    by apply elem_of_nil in Hin. }
  assert (Hsrc : "A" ∈ pr_id <$> people_csv chain_dir) by (simpl; set_solver).
  assert (Hne : "A" ≠ "C") by discriminate.
  split; [exact Hclean|]. split; [exact Hsrc|]. split; [exact Hne|].
  exact (clean_search_outcome StackFrontier elements chain_dir "A" "C"
           iter_elements Hclean Hsrc Hne).
Defined.

(** * The console program on the fixtures *)

Example main_chain_run :
  run_main chain_fs 20 ["degrees.py"] ["a"; "C"; "unread"]
  = Some (inr TypeError,
          mkWorld ["unread"]
            ["Loading data..." +:+ newline; "Data loaded." +:+ newline;
             "Name: "; "Name: "; "2 degrees of separation." +:+ newline]).
Proof. vm_compute. reflexivity. Qed.

Example main_usage_run :
  run_main chain_fs 20 ["degrees.py"; "small"; "extra"] ["a"; "C"]
  = Some (inr (SystemExit "Usage: python degrees.py [directory]"),
          mkWorld ["a"; "C"] []).
Proof. vm_compute. reflexivity. Qed.

Example main_unknown_directory_run :
  run_main chain_fs 20 ["degrees.py"; "large"] ["a"; "C"]
  = Some (inr FileNotFoundError,
          mkWorld ["a"; "C"] ["Loading data..." +:+ newline]).
Proof. vm_compute. reflexivity. Qed.

Example main_person_not_found_run :
  run_main chain_fs 20 ["degrees.py"] ["Z"; "C"]
  = Some (inr (SystemExit "Person not found."),
          mkWorld ["C"] ["Loading data..." +:+ newline; "Data loaded." +:+ newline;
                         "Name: "]).
Proof. vm_compute. reflexivity. Qed.

Lemma chain_candidates (name id : string) :
  name = "a" ∧ id = "A" ∨ name = "C" ∧ id = "C" →
  candidates (load_data chain_dir) name = {[id]}.
Proof. intros [[-> ->]|[-> ->]]; vm_compute; reflexivity. Qed.

Lemma chain_clean : clean_stars chain_dir.
Proof.
  intros srow Hin. simpl in Hin.
  repeat (apply elem_of_cons in Hin as [->|Hin]; [simpl; set_solver|]).
  by apply elem_of_nil in Hin.
Qed.

Lemma main_person_not_found_witness :
  (length ["degrees.py"] ≤ 2)%nat ∧
  chain_fs (directory_arg ["degrees.py"]) = Some chain_dir ∧
  (∀ row, row ∈ people_csv chain_dir → lower (pr_name row) ≠ lower "Z") ∧
  main chain_fs elements 20 ["degrees.py"] (mkWorld ["Z"; "C"] []) =
  Some (inr (SystemExit "Person not found."),
        mkWorld ["C"]
          ([] ++ ["Loading data..." +:+ newline; "Data loaded." +:+ newline;
                  "Name: "])).
Proof.
  assert (Hlen : (length ["degrees.py"] ≤ 2)%nat) by (simpl; lia).
  assert (Hfs : chain_fs (directory_arg ["degrees.py"]) = Some chain_dir)
    by reflexivity.
  assert (Hnone : ∀ row, row ∈ people_csv chain_dir
                         → lower (pr_name row) ≠ lower "Z").
  { intros row Hin. simpl in Hin.
    repeat (apply elem_of_cons in Hin as [->|Hin]; [discriminate|]).
    by apply elem_of_nil in Hin. }
  split; [exact Hlen|]. split; [exact Hfs|]. split; [exact Hnone|].
  exact (main_person_not_found chain_fs elements 20 ["degrees.py"] chain_dir "Z"
           ["C"] [] Hlen Hfs Hnone).
Defined.

Lemma main_end_to_end_witness :
  (length ["degrees.py"] ≤ 2)%nat ∧
  chain_fs (directory_arg ["degrees.py"]) = Some chain_dir ∧
  clean_stars chain_dir ∧
  candidates (load_data chain_dir) "a" = {["A"]} ∧
  candidates (load_data chain_dir) "C" = {["C"]} ∧
  "A" ≠ "C" ∧
  ∃ fuel,
    ((∃ path, is_path (load_data chain_dir) "A" path "C") ∧
     main chain_fs elements fuel ["degrees.py"] (mkWorld ["a"; "C"; "unread"] []) =
     Some (inr TypeError,
           mkWorld ["unread"]
             ([] ++ ["Loading data..." +:+ newline; "Data loaded." +:+ newline;
                     "Name: "; "Name: ";
                     "2 degrees of separation." +:+ newline])))
    ∨ ((∀ path, ¬ is_path (load_data chain_dir) "A" path "C") ∧
       main chain_fs elements fuel ["degrees.py"] (mkWorld ["a"; "C"; "unread"] []) =
       Some (inr (Uncaught NoSolution),
             mkWorld ["unread"]
               ([] ++ ["Loading data..." +:+ newline; "Data loaded." +:+ newline;
                       "Name: "; "Name: "]))).
Proof.
  assert (Hlen : (length ["degrees.py"] ≤ 2)%nat) by (simpl; lia).
  assert (Hfs : chain_fs (directory_arg ["degrees.py"]) = Some chain_dir)
    by reflexivity.
  assert (Hc1 : candidates (load_data chain_dir) "a" = {["A"]})
    by (apply chain_candidates; left; split; reflexivity).
  assert (Hc2 : candidates (load_data chain_dir) "C" = {["C"]})
    by (apply chain_candidates; right; split; reflexivity).
  assert (Hne : "A" ≠ "C") by discriminate.
  split; [exact Hlen|]. split; [exact Hfs|]. split; [exact chain_clean|].
  split; [exact Hc1|]. split; [exact Hc2|]. split; [exact Hne|].
  exact (main_end_to_end chain_fs ["degrees.py"] chain_dir "a" "C" ["unread"] []
           "A" "C" Hlen Hfs chain_clean Hc1 Hc2 Hne).
Defined.

Lemma main_never_returns_witness :
  (2 < length ["degrees.py"; "small"; "large"])%nat ∧
  main chain_fs elements 20 ["degrees.py"; "small"; "large"] (mkWorld ["a"; "C"] [])
  = Some (inr (SystemExit "Usage: python degrees.py [directory]"),
          mkWorld ["a"; "C"] []).
Proof.
  assert (Hlen : (2 < length ["degrees.py"; "small"; "large"])%nat) by (simpl; lia).
  split; [exact Hlen|].
  exact (proj2 (main_never_returns chain_fs elements 20
                  ["degrees.py"; "small"; "large"] (mkWorld ["a"; "C"] [])) Hlen).
Defined.
